(** * Vibration Field Synthesis Engine: a shallow embedding

    The engine of the repository lives in [odsMath.ts]
    ([calculateComponentDisplacement], [calculateVertexDisplacement]), in
    the orbit plot of [OrbitWindow.tsx] ([getPeakAmp], [calcVal], the
    sampling loop) and in the two [useFrame] callbacks that advance the
    per-component clock ([DeformableMesh], [DynamicVector]).

    JavaScript numbers are modelled as real numbers: every statement below
    is a statement of exact real arithmetic, with [Math.sin], [Math.sqrt],
    [Math.PI] and [Math.max] read as [sin], [sqrt], [PI] and [Rmax].
    Optional fields ([harmonics?], [noise?]) are [option] values, [None]
    standing for [undefined]. *)

From Stdlib Require Import Reals Lra Lia List Permutation Bool String.
Import ListNotations.
Open Scope R_scope.

(** ** JavaScript number helpers *)

Module JS.

(** Truthiness of a number: [0] is falsy, every other real is truthy. *)
Definition truthy (x : R) : bool :=
  if Req_dec_T x 0 then false else true.

(** [a > b] on numbers. *)
Definition gt (a b : R) : bool :=
  if Rlt_dec b a then true else false.

(** [x || d] on numbers. *)
Definition or_else (x d : R) : R :=
  if truthy x then x else d.

(** [Math.pow base e] on the part of its domain the engine reaches: the
    base is a [Math.sqrt] result, hence never negative, and the exponent is
    a positive constant.  There [Math.pow 0 e] is [0] and a positive base
    gives [exp (e * ln base)]. *)
Definition Math_pow (base e : R) : R :=
  if Rlt_dec 0 base then Rpower base e else 0.

End JS.

(** ** types.ts *)

Record Harmonic := mkHarmonic {
  order : R;
  amplitudeRatio : R;
  phaseShift : R
}.

Record VibrationComponent := mkComponent {
  amplitude : R;
  phase : R;
  harmonics : option (list Harmonic);
  noise : option R
}.

Record MeasurementPoint := mkPoint {
  id : string;
  label : string;
  position : R * R * R;
  horizontal : VibrationComponent;
  vertical : VibrationComponent;
  axial : VibrationComponent;
  isReference : option bool
}.

(** ** odsMath.ts *)

Module OdsMath.

(** One pass of the harmonics loop body: [val += Math.sin(hAng) * (...)]. *)
Definition harmonicStep (comp : VibrationComponent) (omega t : R)
    (val : R) (h : Harmonic) : R :=
  let hOmega := omega * order h in
  let hAng := hOmega * t + ((phase comp + phaseShift h) * PI / 180) in
  val + sin hAng * (amplitude comp * amplitudeRatio h).

(** The local [val] of [calculateComponentDisplacement] when it reaches
    its [return]: fundamental, then the harmonics loop, then the noise. *)
Definition componentVal (comp : VibrationComponent) (omega t : R) : R :=
  let ang1 := omega * t + (phase comp * PI / 180) in
  let val := sin ang1 * amplitude comp in
  let val :=
    match harmonics comp with
    | Some hs =>
        if (0 <? List.length hs)%nat
        then fold_left (harmonicStep comp omega t) hs val
        else val
    | None => val
    end in
  match noise comp with
  | Some n =>
      if JS.truthy n && JS.gt n 0 then
        let noiseFreq := omega * 25 in
        let noiseVal := sin (noiseFreq * t) + 0.5 * sin (noiseFreq * 1.3 * t) in
        val + noiseVal * n
      else val
  | None => val
  end.

Definition calculateComponentDisplacement (comp : VibrationComponent)
    (omega t globalGain scalar : R) : R :=
  componentVal comp omega t * globalGain * scalar.

(** [THREE.Vector3], with its [divideScalar] (which multiplies by the
    reciprocal). *)
Record Vector3 := mkVector3 { vx : R; vy : R; vz : R }.

Definition divideScalar (v : Vector3) (s : R) : Vector3 :=
  mkVector3 (vx v * (1 / s)) (vy v * (1 / s)) (vz v * (1 / s)).

Definition multiplyScalar (v : Vector3) (s : R) : Vector3 :=
  mkVector3 (vx v * s) (vy v * s) (vz v * s).

Definition SCALAR : R := 0.015.

(** Distance from the vertex to a sensor. *)
Definition dist (x y z : R) (p : MeasurementPoint) : R :=
  let '(p0, p1, p2) := position p in
  let dx := x - p0 in
  let dy := y - p1 in
  let dz := z - p2 in
  let distSq := dx * dx + dy * dy + dz * dz in
  sqrt distSq.

(** The weight function, for a locality exponent [power]. *)
Definition weightOf (power d : R) : R := 1 / (JS.Math_pow d power + 0.1).

(** The loop state: the accumulated [displacement] and [totalWeight]. *)
Record Accum := mkAccum { displacement : Vector3; totalWeight : R }.

Definition sensorStep (power x y z t omega globalGain : R)
    (acc : Accum) (p : MeasurementPoint) : Accum :=
  let weight := weightOf power (dist x y z p) in
  let magH := calculateComponentDisplacement (horizontal p) omega t globalGain SCALAR in
  let magV := calculateComponentDisplacement (vertical p) omega t globalGain SCALAR in
  let magA := calculateComponentDisplacement (axial p) omega t globalGain SCALAR in
  let d := displacement acc in
  mkAccum (mkVector3 (vx d + magH * weight) (vy d + magV * weight) (vz d + magA * weight))
          (totalWeight acc + weight).

Definition sensorLoop (power x y z t omega globalGain : R)
    (points : list MeasurementPoint) : Accum :=
  fold_left (sensorStep power x y z t omega globalGain) points
            (mkAccum (mkVector3 0 0 0) 0).

(** [calculateVertexDisplacement] with the local constant [power] taken
    as an argument. *)
Definition calculateVertexDisplacementWith (power : R) (x y z t animationRpm : R)
    (points : list MeasurementPoint) (globalGain : R) : Vector3 :=
  let omega := (animationRpm * 2 * PI) / 60 in
  let acc := sensorLoop power x y z t omega globalGain points in
  if JS.gt (totalWeight acc) 0
  then divideScalar (displacement acc) (totalWeight acc)
  else displacement acc.

Definition power : R := 3.5.

Definition calculateVertexDisplacement :=
  calculateVertexDisplacementWith power.

End OdsMath.

(** ** OrbitWindow.tsx: the orbit (Lissajous) plot *)

Module OrbitWindow.

(** The canvas element is declared [width={400} height={400}]. *)
Definition canvasWidth : R := 400.
Definition canvasHeight : R := 400.

Definition numCycles : R := 2.
Definition points : nat := 720.
Definition duration : R := numCycles * 2 * PI.

Definition getPeakAmp (comp : VibrationComponent) : R :=
  let peak := amplitude comp in
  let peak :=
    match harmonics comp with
    | Some hs => fold_left (fun peak h => peak + amplitude comp * amplitudeRatio h) hs peak
    | None => peak
    end in
  match noise comp with
  | Some n => if JS.truthy n then peak + n else peak
  | None => peak
  end.

Definition maxAmp (probeX probeY : VibrationComponent) : R :=
  Rmax (getPeakAmp probeX) (getPeakAmp probeY) * 1.5.

Definition scale (width : R) (probeX probeY : VibrationComponent) : R :=
  (width * 0.4) / JS.or_else (maxAmp probeX probeY) 1.

Definition calcStep (comp : VibrationComponent) (t : R) (v : R) (h : Harmonic) : R :=
  v + (amplitude comp * amplitudeRatio h)
      * sin (t * order h + ((phase comp + phaseShift h) * PI / 180)).

Definition calcVal (comp : VibrationComponent) (t : R) : R :=
  let v := amplitude comp * sin (t + (phase comp * PI / 180)) in
  match harmonics comp with
  | Some hs => fold_left (calcStep comp t) hs v
  | None => v
  end.

(** [t] at loop index [i]. *)
Definition sampleTime (i : nat) : R := (INR i / INR points) * duration.

(** [(valX, valY)] at loop index [i]. *)
Definition sample (probeX probeY : VibrationComponent) (i : nat) : R * R :=
  let t := sampleTime i in
  (calcVal probeX t, calcVal probeY t).

(** The indices the loop [for (let i = 0; i <= points; i++)] visits. *)
Definition loopIndices : list nat := seq 0 (S points).

Definition orbitSamples (probeX probeY : VibrationComponent) : list (R * R) :=
  map (sample probeX probeY) loopIndices.

(** The canvas path the loop builds. *)
Inductive PathCmd :=
| MoveTo (px py : R)
| LineTo (px py : R).

Definition cmdPoint (c : PathCmd) : R * R :=
  match c with MoveTo px py | LineTo px py => (px, py) end.

Definition plot (width height : R) (probeX probeY : VibrationComponent) (i : nat) : PathCmd :=
  let centerX := width / 2 in
  let centerY := height / 2 in
  let '(valX, valY) := sample probeX probeY i in
  let px := centerX + valX * scale width probeX probeY in
  let py := centerY - valY * scale width probeX probeY in
  if (i =? 0)%nat then MoveTo px py else LineTo px py.

Definition orbitPath (width height : R) (probeX probeY : VibrationComponent) : list PathCmd :=
  map (plot width height probeX probeY) loopIndices.

End OrbitWindow.

(** ** The per-component clocks ([timeRef]) of the two [useFrame] callbacks *)

Module Clock.

(** [if (isPlaying) timeRef.current += delta]. *)
Definition advance (isPlaying : bool) (delta timeRef : R) : R :=
  if isPlaying then timeRef + delta else timeRef.

(** One frame of [DynamicVector]: what it leaves in [timeRef.current].
    The callback returns before touching the clock while [groupRef] is
    not attached. *)
Record VectorFrame := mkVectorFrame {
  groupRefSet : bool;
  vPlaying : bool;
  vDelta : R
}.

Definition DynamicVector_useFrame (timeRef : R) (f : VectorFrame) : R :=
  if negb (groupRefSet f) then timeRef
  else advance (vPlaying f) (vDelta f) timeRef.

(** One frame of [DeformableMesh]: it returns early while [meshRef] is not
    attached or the geometry has no position attribute. *)
Record MeshFrame := mkMeshFrame {
  meshRefSet : bool;
  hasPositions : bool;
  mPlaying : bool;
  mDelta : R
}.

Definition DeformableMesh_useFrame (timeRef : R) (f : MeshFrame) : R :=
  if negb (meshRefSet f) then timeRef
  else if negb (hasPositions f) then timeRef
  else advance (mPlaying f) (mDelta f) timeRef.

(** A component's clock after a sequence of frames. *)
Definition runVector (frames : list VectorFrame) (timeRef : R) : R :=
  fold_left DynamicVector_useFrame frames timeRef.

Definition runMesh (frames : list MeshFrame) (timeRef : R) : R :=
  fold_left DeformableMesh_useFrame frames timeRef.

End Clock.

(** ** The waveform of the component model, in the specification's words *)

Module Spec.

Definition inRadians (degrees : R) : R := degrees * PI / 180.

(** The component's list of harmonics: none when the field is absent. *)
Definition harmonicList (comp : VibrationComponent) : list Harmonic :=
  match harmonics comp with Some hs => hs | None => [] end.

Definition harmonicTerm (comp : VibrationComponent) (omega t : R) (h : Harmonic) : R :=
  amplitude comp * amplitudeRatio h
  * sin (omega * order h * t + inRadians (phase comp + phaseShift h)).

(** The documented parameter ranges: amplitude, amplitude ratios and noise
    are not negative. *)
Definition nonNegative (comp : VibrationComponent) : Prop :=
  0 <= amplitude comp /\
  Forall (fun h => 0 <= amplitudeRatio h) (harmonicList comp) /\
  match noise comp with Some n => 0 <= n | None => True end.

(** The noise term of the waveform is off: [noise] absent or not [> 0]. *)
Definition noiseOff (comp : VibrationComponent) : Prop :=
  match noise comp with Some n => n <= 0 | None => True end.

End Spec.

(** ** store.ts: the application state and its actions *)

Module Store.

(** [s.includes(sub)] on strings. *)
Definition includes (s sub : string) : bool :=
  match String.index 0 sub s with Some _ => true | None => false end.

Inductive AppMode := ODS | ORBIT.

Inductive ODSMode :=
| Manual
| UnbalanceStatic | UnbalanceCouple | UnbalanceDynamic | UnbalanceOverhung
| AngularMisalignment | ParallelMisalignment | MisalignmentCombo
| BentShaft | EccentricRotor
| LoosenessStructural | LoosenessRocking | LoosenessBearing | SoftFoot
| BearingWear | GearMesh
| ResonanceVert.

(** The string each member of the enum [ODSMode] stands for. *)
Definition ODSMode_value (m : ODSMode) : string :=
  match m with
  | Manual => "Manual Analysis"
  | UnbalanceStatic => "Static Unbalance (Force)"
  | UnbalanceCouple => "Couple Unbalance"
  | UnbalanceDynamic => "Dynamic Unbalance (Most Common)"
  | UnbalanceOverhung => "Overhung Rotor Unbalance"
  | AngularMisalignment => "Angular Misalignment"
  | ParallelMisalignment => "Parallel Misalignment"
  | MisalignmentCombo => "Combined Misalignment"
  | BentShaft => "Bent Shaft"
  | EccentricRotor => "Eccentric Rotor (Var. Air Gap)"
  | LoosenessStructural => "Structural Looseness (Type A)"
  | LoosenessRocking => "Rocking Looseness (Type B)"
  | LoosenessBearing => "Loose Bearing Fit (Type C)"
  | SoftFoot => "Soft Foot (Distortion)"
  | BearingWear => "Bearing Wear (Late Stage)"
  | GearMesh => "Gear Mesh Issue (High Freq)"
  | ResonanceVert => "Vertical Resonance"
  end.

Inductive OrbitFault :=
| OrbitManual
| Unbalance | Misalignment | ShaftCrack | RotorBow
| OilWhirl | OilWhip | Preload
| Rub | Looseness | Resonance.

(** The string each member of the enum [OrbitFault] stands for
    ([OrbitManual] is its member [Manual]). *)
Definition OrbitFault_value (f : OrbitFault) : string :=
  match f with
  | OrbitManual => "Manual Config"
  | Unbalance => "Unbalance (1X Circle)"
  | Misalignment => "Misalignment (Banana/Ellipse)"
  | ShaftCrack => "Shaft Crack (1X + 2X Loop)"
  | RotorBow => "Rotor Bow (High 1X)"
  | OilWhirl => "Oil Whirl (0.4X - 0.48X)"
  | OilWhip => "Oil Whip (Locked Sub-sync)"
  | Preload => "Radial Preload (Flattened)"
  | Rub => "Rub (Truncated/Bouncing)"
  | Looseness => "Mechanical Looseness"
  | Resonance => "Resonance (Phase Shift)"
  end.

(** [Object.values(OrbitFault)]. *)
Definition OrbitFault_values : list string :=
  map OrbitFault_value
      [OrbitManual; Unbalance; Misalignment; ShaftCrack; RotorBow;
       OilWhirl; OilWhip; Preload; Rub; Looseness; Resonance].

(** The fields of [SimulationState] that hold data; the modes are kept as
    the strings they are at run time. *)
Record SimulationState := mkState {
  appMode : AppMode;
  animationRpm : R;
  machineRpm : R;
  globalGain : R;
  lineFreq : R;
  isPlaying : bool;
  wireframe : bool;
  isAnalysisMode : bool;
  isSettingsOpen : bool;
  isUploadModalOpen : bool;
  isOrbitPlotOpen : bool;
  isOrbitSimulationVisible : bool;
  currentMode : string;
  currentOrbitFault : string;
  simulationTime : R;
  shaftAngle : R;
  points : list MeasurementPoint;
  orbitPoints : list MeasurementPoint;
  selectedPointId : option string
}.

(** [set({ ... })] for the fields the actions below write. *)
Definition set_points (s : SimulationState) (v : list MeasurementPoint) :=
  mkState (appMode s) (animationRpm s) (machineRpm s) (globalGain s) (lineFreq s)
    (isPlaying s) (wireframe s) (isAnalysisMode s) (isSettingsOpen s)
    (isUploadModalOpen s) (isOrbitPlotOpen s) (isOrbitSimulationVisible s)
    (currentMode s) (currentOrbitFault s) (simulationTime s) (shaftAngle s)
    v (orbitPoints s) (selectedPointId s).

Definition set_orbitPoints (s : SimulationState) (v : list MeasurementPoint) :=
  mkState (appMode s) (animationRpm s) (machineRpm s) (globalGain s) (lineFreq s)
    (isPlaying s) (wireframe s) (isAnalysisMode s) (isSettingsOpen s)
    (isUploadModalOpen s) (isOrbitPlotOpen s) (isOrbitSimulationVisible s)
    (currentMode s) (currentOrbitFault s) (simulationTime s) (shaftAngle s)
    (points s) v (selectedPointId s).



Definition set_isUploadModalOpen (s : SimulationState) (v : bool) :=
  mkState (appMode s) (animationRpm s) (machineRpm s) (globalGain s) (lineFreq s)
    (isPlaying s) (wireframe s) (isAnalysisMode s) (isSettingsOpen s)
    v (isOrbitPlotOpen s) (isOrbitSimulationVisible s)
    (currentMode s) (currentOrbitFault s) (simulationTime s) (shaftAngle s)
    (points s) (orbitPoints s) (selectedPointId s).

Definition set_currentMode (s : SimulationState) (v : string) :=
  mkState (appMode s) (animationRpm s) (machineRpm s) (globalGain s) (lineFreq s)
    (isPlaying s) (wireframe s) (isAnalysisMode s) (isSettingsOpen s)
    (isUploadModalOpen s) (isOrbitPlotOpen s) (isOrbitSimulationVisible s)
    v (currentOrbitFault s) (simulationTime s) (shaftAngle s)
    (points s) (orbitPoints s) (selectedPointId s).

Definition set_currentOrbitFault (s : SimulationState) (v : string) :=
  mkState (appMode s) (animationRpm s) (machineRpm s) (globalGain s) (lineFreq s)
    (isPlaying s) (wireframe s) (isAnalysisMode s) (isSettingsOpen s)
    (isUploadModalOpen s) (isOrbitPlotOpen s) (isOrbitSimulationVisible s)
    (currentMode s) v (simulationTime s) (shaftAngle s)
    (points s) (orbitPoints s) (selectedPointId s).

(** Spreads [{ ...p, horizontal: c }] and the like. *)
Definition with_horizontal (p : MeasurementPoint) (c : VibrationComponent) :=
  mkPoint (id p) (label p) (position p) c (vertical p) (axial p) (isReference p).
Definition with_vertical (p : MeasurementPoint) (c : VibrationComponent) :=
  mkPoint (id p) (label p) (position p) (horizontal p) c (axial p) (isReference p).
Definition with_axial (p : MeasurementPoint) (c : VibrationComponent) :=
  mkPoint (id p) (label p) (position p) (horizontal p) (vertical p) c (isReference p).
Definition with_isReference (p : MeasurementPoint) (b : bool) :=
  mkPoint (id p) (label p) (position p) (horizontal p) (vertical p) (axial p) (Some b).

(** [{ ...c, amplitude: a, phase: ph }]. *)
Definition with_amplitude_phase (c : VibrationComponent) (a ph : R) :=
  mkComponent a ph (harmonics c) (noise c).

Definition createPoint (i l : string) (x y z : R) (isRef : bool) : MeasurementPoint :=
  mkPoint i l (x, y, z)
    (mkComponent 0.2 0 (Some []) (Some 0))
    (mkComponent 0.1 0 (Some []) (Some 0))
    (mkComponent 0.1 0 (Some []) (Some 0))
    (Some isRef).

Definition INITIAL_ODS_POINTS : list MeasurementPoint :=
  [ createPoint "m-foot-de-l" "Motor Foot DE-L" 0.6 0.2 0.8 false;
    createPoint "m-foot-de-r" "Motor Foot DE-R" (-0.6) 0.2 0.8 false;
    createPoint "m-foot-nde-l" "Motor Foot NDE-L" 0.6 0.2 (-0.8) false;
    createPoint "m-foot-nde-r" "Motor Foot NDE-R" (-0.6) 0.2 (-0.8) false;
    createPoint "m-nde" "Motor NDE Brg" 0 1.4 (-0.8) false;
    createPoint "m-de" "Motor DE Brg" 0 1.4 1.0 true;
    createPoint "p-de" "Pump Inboard Brg" 0 1.35 5.5 false;
    createPoint "p-nde" "Pump Outboard Brg" 0 1.35 6.5 false ].

Definition INITIAL_ORBIT_POINTS : list MeasurementPoint :=
  [ createPoint "probe-x" "Probe X" 1.0 1.0 0 false;
    createPoint "probe-y" "Probe Y" (-1.0) 1.0 0 false;
    createPoint "keyphasor" "Keyphasor" 0 1.5 (-0.5) true ].

(** The state the store is created with. *)
Definition initialState : SimulationState :=
  mkState ODS 110 1480 10.0 50 true false false false false false false
    (ODSMode_value Manual) (OrbitFault_value OrbitManual) 0 0
    INITIAL_ODS_POINTS INITIAL_ORBIT_POINTS None.

Definition updateSoftFootPoints (pts : list MeasurementPoint)
    (machineRpm lineFreq : R) : list MeasurementPoint :=
  let safeRpm := JS.or_else machineRpm 1 in
  let lfOrder := (2 * lineFreq * 60) / safeRpm in
  map (fun p =>
         if (id p =? "m-foot-de-r")%string then
           with_vertical p
             (mkComponent 6.0 (phase (vertical p))
                (Some [mkHarmonic lfOrder 1.2 180]) (noise (vertical p)))
         else p) pts.




Definition toggleUploadModal (s : SimulationState) : SimulationState :=
  set_isUploadModalOpen s (negb (isUploadModalOpen s)).

Definition setAllPoints (s : SimulationState) (newPoints : list MeasurementPoint) :=
  set_points s newPoints.

(** [Partial<MeasurementPoint>]: a field that is [None] is not in the
    object. *)
Record PartialPoint := mkPartial {
  u_id : option string;
  u_label : option string;
  u_position : option (R * R * R);
  u_horizontal : option VibrationComponent;
  u_vertical : option VibrationComponent;
  u_axial : option VibrationComponent;
  u_isReference : option bool
}.

Definition orKeep {A} (u : option A) (old : A) : A :=
  match u with Some v => v | None => old end.

(** [{ ...p, ...updates }]. *)
Definition spread (p : MeasurementPoint) (u : PartialPoint) : MeasurementPoint :=
  mkPoint (orKeep (u_id u) (id p)) (orKeep (u_label u) (label p))
    (orKeep (u_position u) (position p))
    (orKeep (u_horizontal u) (horizontal p))
    (orKeep (u_vertical u) (vertical p))
    (orKeep (u_axial u) (axial p))
    (match u_isReference u with Some b => Some b | None => isReference p end).

Definition updateIn (pid : string) (u : PartialPoint) (pts : list MeasurementPoint) :=
  map (fun p => if (id p =? pid)%string then spread p u else p) pts.

Definition updatePoint (s : SimulationState) (pid : string) (u : PartialPoint)
    : SimulationState :=
  let isOrbitPoint := existsb (fun p => (id p =? pid)%string) (orbitPoints s) in
  if isOrbitPoint
  then set_orbitPoints s (updateIn pid u (orbitPoints s))
  else set_points s (updateIn pid u (points s)).

Definition setReferencePoint (s : SimulationState) (pid : string) : SimulationState :=
  set_orbitPoints
    (set_points s (map (fun p => with_isReference p (id p =? pid)%string) (points s)))
    (map (fun p => with_isReference p (id p =? pid)%string) (orbitPoints s)).

(** The case label of a [switch] over the enum that the string [v] meets,
    if any. *)
Definition ODSMode_of (v : string) : option ODSMode :=
  find (fun m => (v =? ODSMode_value m)%string)
       [Manual; UnbalanceStatic; UnbalanceCouple; UnbalanceDynamic;
        UnbalanceOverhung; AngularMisalignment; ParallelMisalignment;
        MisalignmentCombo; BentShaft; EccentricRotor; LoosenessStructural;
        LoosenessRocking; LoosenessBearing; SoftFoot; BearingWear; GearMesh;
        ResonanceVert].

Definition OrbitFault_of (v : string) : option OrbitFault :=
  find (fun f => (v =? OrbitFault_value f)%string)
       [OrbitManual; Unbalance; Misalignment; ShaftCrack; RotorBow;
        OilWhirl; OilWhip; Preload; Rub; Looseness; Resonance].

(** *** [resetToMode], orbit branch *)

Definition baseAmp : R := 10.

Definition orbitBaseline (p : MeasurementPoint) : MeasurementPoint :=
  if (id p =? "keyphasor")%string then p
  else mkPoint (id p) (label p) (position p)
         (mkComponent baseAmp 0 (Some []) (Some 0))
         (mkComponent 0 0 (Some []) (Some 0))
         (mkComponent 0 0 (Some []) (Some 0))
         (isReference p).

(** One call of the local [updateProbe], on the list it rewrites. *)
Definition updateProbe (newOrbitPoints : list MeasurementPoint) (pid : string)
    (amp ph : R) (hs : list Harmonic) (nz : R) : list MeasurementPoint :=
  map (fun p =>
         if (id p =? pid)%string
         then with_horizontal p (mkComponent amp ph (Some hs) (Some nz))
         else p) newOrbitPoints.

Definition orbitPreset (mode : string) (newOrbitPoints : list MeasurementPoint)
    : list MeasurementPoint :=
  match OrbitFault_of mode with
  | Some Unbalance =>
      updateProbe (updateProbe newOrbitPoints "probe-x" 40 0 [] 0) "probe-y" 40 90 [] 0
  | Some Misalignment =>
      let misHarm := [mkHarmonic 2 0.4 45] in
      updateProbe (updateProbe newOrbitPoints "probe-x" 35 0 misHarm 0)
                  "probe-y" 20 120 misHarm 0
  | Some ShaftCrack =>
      let crackHarm := [mkHarmonic 2 0.5 180] in
      updateProbe (updateProbe newOrbitPoints "probe-x" 35 0 crackHarm 0)
                  "probe-y" 35 90 crackHarm 0
  | Some RotorBow =>
      updateProbe (updateProbe newOrbitPoints "probe-x" 60 0 [] 0) "probe-y" 60 90 [] 0
  | Some OilWhirl =>
      let whirl := [mkHarmonic 0.45 0.8 90] in
      updateProbe (updateProbe newOrbitPoints "probe-x" 30 0 whirl 0)
                  "probe-y" 30 90 whirl 0
  | Some OilWhip =>
      let whip := [mkHarmonic 0.48 1.5 80] in
      updateProbe (updateProbe newOrbitPoints "probe-x" 50 0 whip 0)
                  "probe-y" 50 90 whip 0
  | Some Preload =>
      updateProbe (updateProbe newOrbitPoints "probe-x" 45 0 [] 0) "probe-y" 10 90 [] 0
  | Some Rub =>
      let rubHarm := [mkHarmonic 0.5 0.3 0; mkHarmonic 2.0 0.3 180; mkHarmonic 3.0 0.2 0] in
      updateProbe (updateProbe newOrbitPoints "probe-x" 30 0 rubHarm 10)
                  "probe-y" 30 90 rubHarm 10
  | Some Looseness =>
      let looseHarm := [mkHarmonic 2 0.5 0; mkHarmonic 3 0.3 0; mkHarmonic 4 0.2 0] in
      updateProbe (updateProbe newOrbitPoints "probe-x" 25 0 looseHarm 0)
                  "probe-y" 30 90 looseHarm 0
  | Some Resonance =>
      updateProbe (updateProbe newOrbitPoints "probe-x" 80 180 [] 0) "probe-y" 80 270 [] 0
  | _ => newOrbitPoints
  end.

(** *** [resetToMode], ODS branch *)

Definition odsBaseline (p : MeasurementPoint) : MeasurementPoint :=
  mkPoint (id p) (label p) (position p)
    (mkComponent 0.3 0 (Some []) (Some 0))
    (mkComponent 0.2 0 (Some []) (Some 0))
    (mkComponent 0.1 0 (Some []) (Some 0))
    (isReference p).

#[local] Open Scope string_scope.

(** The function each [case] hands to [setAll]. *)
Definition odsCase (m : ODSMode) (p : MeasurementPoint) : MeasurementPoint :=
  let idIs v := (id p =? v)%string in
  let nde180 := if includes (id p) "nde" then 180 else 0 in
  match m with
  | UnbalanceStatic =>
      if includes (id p) "m-" && negb (includes (id p) "foot") then
        with_vertical
          (with_horizontal p (with_amplitude_phase (horizontal p) 8.0 90))
          (with_amplitude_phase (vertical p) 7.5 0)
      else p
  | UnbalanceCouple =>
      if includes (id p) "m-" && negb (includes (id p) "foot") then
        with_vertical
          (with_horizontal p (with_amplitude_phase (horizontal p) 8.0 (90 + nde180)))
          (with_amplitude_phase (vertical p) 7.5 (0 + nde180))
      else p
  | UnbalanceDynamic =>
      if idIs "m-de" then
        with_vertical
          (with_horizontal p (with_amplitude_phase (horizontal p) 8 30))
          (with_amplitude_phase (vertical p) 7 (-60))
      else if idIs "m-nde" then
        with_vertical
          (with_horizontal p (with_amplitude_phase (horizontal p) 6 150))
          (with_amplitude_phase (vertical p) 5 60)
      else p
  | UnbalanceOverhung =>
      if idIs "p-de" then
        with_axial
          (with_vertical
             (with_horizontal p (with_amplitude_phase (horizontal p) 8 90))
             (with_amplitude_phase (vertical p) 8 0))
          (with_amplitude_phase (axial p) 7 0)
      else if idIs "p-nde" then
        with_axial p (with_amplitude_phase (axial p) 7 180)
      else p
  | AngularMisalignment =>
      if idIs "m-de" || idIs "p-de" then
        with_axial p
          (mkComponent 9.0 (if idIs "p-de" then 180 else 0)
             (Some [mkHarmonic 2 0.5 0]) (Some 0))
      else p
  | ParallelMisalignment =>
      let h := [mkHarmonic 2 1.5 0] in
      if idIs "m-de" then
        with_horizontal (with_vertical p (mkComponent 4 0 (Some h) None))
                        (mkComponent 3 90 (Some h) None)
      else if idIs "p-de" then
        with_horizontal (with_vertical p (mkComponent 4 180 (Some h) None))
                        (mkComponent 3 270 (Some h) None)
      else p
  | MisalignmentCombo =>
      if idIs "m-de" || idIs "p-de" then
        with_axial
          (with_vertical p (mkComponent 5 0 (Some [mkHarmonic 2 1.0 0]) None))
          (mkComponent 5 0 (Some [mkHarmonic 2 1.0 0]) None)
      else p
  | BentShaft =>
      if idIs "m-de" || idIs "m-nde" then
        with_vertical
          (with_axial p
             (with_amplitude_phase (axial p) 8.0 (if idIs "m-nde" then 180 else 0)))
          (with_amplitude_phase (vertical p) 3.0 0)
      else p
  | EccentricRotor =>
      if idIs "m-de" then
        with_vertical p (mkComponent 8.0 0 (Some [mkHarmonic 2 0.4 0]) None)
      else p
  | LoosenessStructural =>
      if includes (id p) "foot-de" then
        with_vertical p
          (mkComponent 10.0 0 (Some [mkHarmonic 2 0.5 0; mkHarmonic 3 0.3 0]) None)
      else p
  | LoosenessRocking =>
      if idIs "m-de" then
        with_vertical
          (with_horizontal p (mkComponent 8.0 0 (Some [mkHarmonic 2 0.6 180]) None))
          (mkComponent 2.0 90 None None)
      else p
  | LoosenessBearing =>
      if idIs "p-de" then
        with_vertical p
          (mkComponent 6.0 0
             (Some [mkHarmonic 0.5 0.4 0; mkHarmonic 1.5 0.3 0;
                    mkHarmonic 2.0 0.5 0; mkHarmonic 3.0 0.4 0]) None)
      else p
  | BearingWear =>
      if idIs "p-de" then
        with_horizontal (with_vertical p (mkComponent 1.0 0 None (Some 5.0)))
                        (mkComponent 1.0 0 None (Some 5.0))
      else p
  | GearMesh =>
      if idIs "p-de" then
        with_vertical p (mkComponent 0.5 0 (Some [mkHarmonic 12.0 8.0 0]) None)
      else p
  | ResonanceVert =>
      let '(_, _, z) := position p in
      let amp := Rabs (sin (z / 2)) * 10.0 in
      with_vertical p (mkComponent amp 90 (Some []) (Some 0))
  | Manual | SoftFoot => p
  end.

Definition odsPreset (s : SimulationState) (mode : string)
    (newPoints : list MeasurementPoint) : list MeasurementPoint :=
  match ODSMode_of mode with
  | Some SoftFoot => updateSoftFootPoints newPoints (machineRpm s) (lineFreq s)
  | Some m => map (odsCase m) newPoints
  | None => newPoints
  end.

Definition resetToMode (s : SimulationState) (mode : string) : SimulationState :=
  if existsb (String.eqb mode) OrbitFault_values then
    let newOrbitPoints := map orbitBaseline (orbitPoints s) in
    set_currentOrbitFault (set_orbitPoints s (orbitPreset mode newOrbitPoints)) mode
  else
    let newPoints := map odsBaseline (points s) in
    set_currentMode (set_points s (odsPreset s mode newPoints)) mode.

(** What a preset never touches in a point. *)
Definition identityOf (p : MeasurementPoint) :=
  (id p, label p, position p, isReference p).

(** The function one call of [updateProbe] maps over the list. *)
Definition probeFn (pid : string) (amp ph : R) (hs : list Harmonic) (nz : R)
    (p : MeasurementPoint) : MeasurementPoint :=
  if (id p =? pid)%string
  then with_horizontal p (mkComponent amp ph (Some hs) (Some nz))
  else p.

(** Every point of the orbit roster but the keyphasor holds components in
    range. *)
Definition probesInRange (pts : list MeasurementPoint) : Prop :=
  forall p, In p pts -> id p <> "keyphasor"%string ->
    Spec.nonNegative (horizontal p).

(** The three components of a point are in range. *)
Definition allInRange (p : MeasurementPoint) : Prop :=
  Spec.nonNegative (horizontal p) /\
  Spec.nonNegative (vertical p) /\
  Spec.nonNegative (axial p).

(** What an orbit preset does to one point of the list it is given. *)
Definition orbitFn (mode : string) (p : MeasurementPoint) : MeasurementPoint :=
  match orbitPreset mode [p] with
  | q :: _ => q
  | [] => p
  end.

End Store.

(** ** OrbitWindow.tsx: the component around the plot *)

Module OrbitEffect.
Import OrbitWindow.

(** [orbitPoints.find(p => p.id === pid)]. *)
Definition findById (pid : string) (orbitPoints : list MeasurementPoint)
    : option MeasurementPoint :=
  find (fun p => (id p =? pid)%string) orbitPoints.

Definition probeX (orbitPoints : list MeasurementPoint) : option VibrationComponent :=
  option_map horizontal (findById "probe-x" orbitPoints).

Definition probeY (orbitPoints : list MeasurementPoint) : option VibrationComponent :=
  option_map horizontal (findById "probe-y" orbitPoints).

Definition kp (orbitPoints : list MeasurementPoint) : option MeasurementPoint :=
  findById "keyphasor" orbitPoints.

(** [kp?.horizontal.phase || 0]. *)
Definition kpPhaseShift (k : option MeasurementPoint) : R :=
  match k with
  | Some p => JS.or_else (phase (horizontal p)) 0
  | None => 0
  end.

Definition kpRad (k : option MeasurementPoint) : R := kpPhaseShift k * PI / 180.

Definition kpTime (k : option MeasurementPoint) : R := 0 - kpRad k.

(** Centre [(kpx, kpy)] of the keyphasor dot. *)
Definition keyphasorDot (width height : R) (pX pY : VibrationComponent)
    (k : option MeasurementPoint) : R * R :=
  let centerX := width / 2 in
  let centerY := height / 2 in
  let kpx := centerX + calcVal pX (kpTime k) * scale width pX pY in
  let kpy := centerY - calcVal pY (kpTime k) * scale width pX pY in
  (kpx, kpy).

(** What one run of the effect draws: the orbit path, the keyphasor dot
    and the number shown in the scale label. *)
Record Drawing := mkDrawing {
  orbit : list PathCmd;
  dot : R * R;
  scaleShown : R
}.

(** The effect: nothing is drawn while the window is closed, the canvas
    (or its 2D context) is missing, or one of the two probes is not in the
    list. *)
Definition drawOrbit (isOrbitPlotOpen canvasReady : bool) (width height : R)
    (orbitPoints : list MeasurementPoint) : option Drawing :=
  if negb isOrbitPlotOpen || negb canvasReady then None
  else
    match probeX orbitPoints, probeY orbitPoints with
    | Some pX, Some pY =>
        Some (mkDrawing (orbitPath width height pX pY)
                        (keyphasorDot width height pX pY (kp orbitPoints))
                        (maxAmp pX pY))
    | _, _ => None
    end.

End OrbitEffect.

(** ** The sensor editor of the interface: manual entry *)

Module Interface.
Import Store.

Inductive Axis := Horizontal | Vertical | Axial.

(** [selectedPoint[activeAxis]]. *)
Definition axisOf (p : MeasurementPoint) (a : Axis) : VibrationComponent :=
  match a with
  | Horizontal => horizontal p
  | Vertical => vertical p
  | Axial => axial p
  end.

(** [{ [activeAxis]: c }]. *)
Definition axisUpdate (a : Axis) (c : VibrationComponent) : PartialPoint :=
  match a with
  | Horizontal => mkPartial None None None (Some c) None None None
  | Vertical => mkPartial None None None None (Some c) None None
  | Axial => mkPartial None None None None None (Some c) None
  end.

Definition activePoints (s : SimulationState) : list MeasurementPoint :=
  match appMode s with ORBIT => orbitPoints s | ODS => points s end.

Definition selectedPoint (s : SimulationState) : option MeasurementPoint :=
  match selectedPointId s with
  | Some i => find (fun p => (id p =? i)%string) (activePoints s)
  | None => None
  end.

Inductive Field := FAmplitude | FPhase.

(** [{ ...c, [field]: value }]. *)
Definition setField (c : VibrationComponent) (f : Field) (value : R) : VibrationComponent :=
  match f with
  | FAmplitude => mkComponent value (phase c) (harmonics c) (noise c)
  | FPhase => mkComponent (amplitude c) value (harmonics c) (noise c)
  end.

Definition updateComponent (s : SimulationState) (activeAxis : Axis)
    (field : Field) (value : R) : SimulationState :=
  match selectedPoint s with
  | None => s
  | Some sel =>
      let component := setField (axisOf sel activeAxis) field value in
      updatePoint s (id sel) (axisUpdate activeAxis component)
  end.

(** The form state: the fundamental and the list of typed-in peaks. *)
Record ManualFund := mkManualFund { fundAmp : R; fundPhase : R }.

Record ManualHarmonic := mkManualHarmonic {
  mhId : R;
  mhOrder : R;
  mhAmp : R
}.

(** The [harmonics] array [applyManualSimulation] builds. *)
Definition manualToHarmonics (manualFund : ManualFund)
    (manualHarmonics : list ManualHarmonic) : list Harmonic :=
  map (fun h =>
         mkHarmonic (mhOrder h)
           (if JS.gt (fundAmp manualFund) 0 then mhAmp h / fundAmp manualFund else 0)
           0)
      manualHarmonics.

Definition manualComponent (manualFund : ManualFund)
    (manualHarmonics : list ManualHarmonic) : VibrationComponent :=
  mkComponent (fundAmp manualFund) (fundPhase manualFund)
    (Some (manualToHarmonics manualFund manualHarmonics)) (Some 0).

Definition applyManualSimulation (s : SimulationState) (activeAxis : Axis)
    (manualFund : ManualFund) (manualHarmonics : list ManualHarmonic)
    : SimulationState :=
  match selectedPoint s with
  | None => s
  | Some sel =>
      toggleUploadModal
        (updatePoint s (id sel)
           (axisUpdate activeAxis (manualComponent manualFund manualHarmonics)))
  end.

(** The amplitude the form shows for a stored harmonic, before it is
    rounded to two decimals for display. *)
Definition shownAmp (comp : VibrationComponent) (h : Harmonic) : R :=
  amplitudeRatio h * amplitude comp.

End Interface.

(** ** Vectors.tsx: the arrow drawn at a sensor *)

Module Vectors.
Import OdsMath.

(** [Vector3.length]. *)
Definition length (v : Vector3) : R :=
  sqrt (vx v * vx v + vy v * vy v + vz v * vz v).

(** What a frame of [DynamicVector] reads and writes, the rotation of the
    group apart: its clock, the group's position and visibility, and the
    placement of shaft and head along the arrow. *)
Record ArrowGroup := mkArrowGroup {
  timeRef : R;
  groupPosition : Vector3;
  visible : bool;
  shaftScaleY : R;
  shaftPositionY : R;
  headPositionY : R
}.

Definition visualScale : R := 4.0.

Definition DynamicVector_frame (position : R * R * R)
    (animationRpm : R) (points : list MeasurementPoint) (globalGain : R)
    (isPlaying groupRefSet : bool) (delta : R) (g : ArrowGroup) : ArrowGroup :=
  if negb groupRefSet then g
  else
    let time := Clock.advance isPlaying delta (timeRef g) in
    let '(p0, p1, p2) := position in
    let disp := calculateVertexDisplacement p0 p1 p2 time animationRpm points globalGain in
    let pos := mkVector3 (p0 + vx disp) (p1 + vy disp) (p2 + vz disp) in
    let mag := length disp in
    if JS.gt 0.001 mag then
      mkArrowGroup time pos false (shaftScaleY g) (shaftPositionY g) (headPositionY g)
    else
      let arrowLen := mag * visualScale in
      mkArrowGroup time pos true arrowLen (arrowLen / 2) arrowLen.

End Vectors.

(** * Facts *)

(** ** JavaScript number helpers *)

Module JSFacts.
Import JS.

Lemma truthy_true x : x <> 0 -> truthy x = true.
Proof. unfold truthy; destruct (Req_dec_T x 0); congruence. Qed.

Lemma truthy_zero : truthy 0 = false.
Proof. unfold truthy; destruct (Req_dec_T 0 0); congruence. Qed.

Lemma gt_true a b : b < a -> gt a b = true.
Proof. unfold gt; destruct (Rlt_dec b a); tauto. Qed.

Lemma gt_false a b : a <= b -> gt a b = false.
Proof. unfold gt; destruct (Rlt_dec b a); [lra | reflexivity]. Qed.

(** The guard [comp.noise && comp.noise > 0] is the test [noise > 0]. *)
Lemma noise_guard n : truthy n && gt n 0 = gt n 0.
Proof.
  unfold truthy, gt.
  destruct (Req_dec_T n 0), (Rlt_dec 0 n); simpl; try reflexivity; lra.
Qed.

Lemma Math_pow_zero e : Math_pow 0 e = 0.
Proof. unfold Math_pow; destruct (Rlt_dec 0 0); [lra | reflexivity]. Qed.

Lemma Math_pow_nonneg base e : 0 <= Math_pow base e.
Proof.
  unfold Math_pow; destruct (Rlt_dec 0 base); [| lra].
  left; apply exp_pos.
Qed.

End JSFacts.

(** ** The component model *)

Section ComponentModel.
Import OdsMath.

Variables (omega t : R).

(** The harmonics loop adds one term per harmonic, left to right. *)
Lemma harmonics_loop comp hs : forall val,
  fold_left (harmonicStep comp omega t) hs val =
  fold_left Rplus (map (Spec.harmonicTerm comp omega t) hs) val.
Proof.
  induction hs as [| h hs IH]; intro val; simpl; [reflexivity |].
  rewrite IH; f_equal.
  unfold harmonicStep, Spec.harmonicTerm, Spec.inRadians; ring.
Qed.

(** Swapping two neighbours of the harmonics list leaves the loop's result
    alone, hence so does any permutation. *)
Lemma harmonics_loop_perm comp hs hs' :
  Permutation hs hs' ->
  forall val, fold_left (harmonicStep comp omega t) hs val =
              fold_left (harmonicStep comp omega t) hs' val.
Proof.
  induction 1 as [| h l l' _ IH | h1 h2 l | l l' l'' _ IH1 _ IH2]; intro val; simpl.
  - reflexivity.
  - apply IH.
  - f_equal; unfold harmonicStep; ring.
  - now rewrite IH1.
Qed.

(** The guard [harmonics.length > 0] changes nothing: an empty loop is a
    no-op. *)
Lemma harmonics_guard comp hs val :
  (if (0 <? List.length hs)%nat
   then fold_left (harmonicStep comp omega t) hs val else val) =
  fold_left (harmonicStep comp omega t) hs val.
Proof. destruct hs; reflexivity. Qed.

(** [componentVal] in one equation, the guards resolved. *)
Lemma componentVal_eq comp :
  componentVal comp omega t =
  fold_left (harmonicStep comp omega t) (Spec.harmonicList comp)
            (sin (omega * t + phase comp * PI / 180) * amplitude comp)
  + match noise comp with
    | Some n =>
        if JS.gt n 0
        then (sin (omega * 25 * t) + 0.5 * sin (omega * 25 * 1.3 * t)) * n
        else 0
    | None => 0
    end.
Proof.
  unfold componentVal, Spec.harmonicList.
  destruct (harmonics comp) as [hs |]; rewrite ?harmonics_guard; simpl;
    (destruct (noise comp) as [n |];
     [rewrite JSFacts.noise_guard; destruct (JS.gt n 0) | ]); ring.
Qed.

End ComponentModel.

Section ComponentClaims.
Import OdsMath.

(** C1. The evaluated waveform is, in this order, the fundamental
    [amplitude * sin (omega * t + phase in radians)], plus one term
    [amplitude * amplitudeRatio * sin (omega * order * t + (phase + phaseShift) in radians)]
    per harmonic of the list, plus, exactly when [noise > 0],
    [noise * (sin (25 * omega * t) + 0.5 * sin (25 * 1.3 * omega * t))];
    harmonic orders are arbitrary reals.  [calculateComponentDisplacement]
    returns that waveform times the gain and the unit scalar it is handed. *)
Theorem component_waveform_formula
    (comp : VibrationComponent) (omega t globalGain scalar : R) :
  let waveform :=
    fold_left Rplus
      (map (fun h =>
              amplitude comp * amplitudeRatio h
              * sin (omega * order h * t
                     + Spec.inRadians (phase comp + phaseShift h)))
           (Spec.harmonicList comp))
      (amplitude comp * sin (omega * t + Spec.inRadians (phase comp)))
    + match noise comp with
      | Some n =>
          if Rlt_dec 0 n
          then n * (sin (25 * omega * t) + 0.5 * sin (25 * 1.3 * omega * t))
          else 0
      | None => 0
      end in
  componentVal comp omega t = waveform /\
  calculateComponentDisplacement comp omega t globalGain scalar
  = waveform * globalGain * scalar.
Proof.
  intro waveform.
  assert (E : componentVal comp omega t = waveform).
  { rewrite componentVal_eq, harmonics_loop; subst waveform.
    unfold Spec.harmonicTerm, Spec.inRadians, JS.gt.
    replace (sin (omega * t + phase comp * PI / 180) * amplitude comp)
      with (amplitude comp * sin (omega * t + phase comp * PI / 180)) by ring.
    f_equal.
    destruct (noise comp) as [n |]; [| reflexivity].
    destruct (Rlt_dec 0 n); [| reflexivity].
    replace (omega * 25 * t) with (25 * omega * t) by ring.
    replace (omega * 25 * 1.3 * t) with (25 * 1.3 * omega * t) by ring.
    ring. }
  split; [exact E |].
  unfold calculateComponentDisplacement; now rewrite E.
Qed.

(** C5. Permuting the harmonics list of a component leaves its evaluated
    result unchanged, exactly, for every angular velocity and time. *)
Theorem harmonics_order_invariance
    (a ph : R) (hs hs' : list Harmonic) (n : option R)
    (omega t globalGain scalar : R) :
  Permutation hs hs' ->
  componentVal (mkComponent a ph (Some hs) n) omega t
  = componentVal (mkComponent a ph (Some hs') n) omega t /\
  calculateComponentDisplacement (mkComponent a ph (Some hs) n) omega t globalGain scalar
  = calculateComponentDisplacement (mkComponent a ph (Some hs') n) omega t globalGain scalar.
Proof.
  intro P.
  assert (E : componentVal (mkComponent a ph (Some hs) n) omega t
              = componentVal (mkComponent a ph (Some hs') n) omega t).
  { rewrite !componentVal_eq; simpl.
    f_equal.
    exact (harmonics_loop_perm omega t (mkComponent a ph (Some hs) n) hs hs' P _). }
  split; [exact E |].
  unfold calculateComponentDisplacement; now rewrite E.
Qed.

Lemma harmonics_order_invariance_witness :
  let h2 := mkHarmonic 2 0.5 30 in
  let h045 := mkHarmonic 0.45 0.8 (-90) in
  calculateComponentDisplacement (mkComponent 40 10 (Some [h2; h045]) (Some 3)) 1 2 10 0.015
  = calculateComponentDisplacement (mkComponent 40 10 (Some [h045; h2]) (Some 3)) 1 2 10 0.015.
Proof.
  intros h2 h045.
  apply (harmonics_order_invariance 40 10 [h2; h045] [h045; h2] (Some 3) 1 2 10 0.015).
  apply perm_swap.
Defined.

(** C9. A component whose [harmonics] field is absent evaluates as the same
    component with an empty list, and one whose [noise] field is absent as
    the same component with noise [0]; the evaluation is a total function. *)
Theorem optional_fields_default
    (a ph : R) (hs : option (list Harmonic)) (n : option R)
    (omega t globalGain scalar : R) :
  calculateComponentDisplacement (mkComponent a ph None n) omega t globalGain scalar
  = calculateComponentDisplacement (mkComponent a ph (Some []) n) omega t globalGain scalar
  /\
  calculateComponentDisplacement (mkComponent a ph hs None) omega t globalGain scalar
  = calculateComponentDisplacement (mkComponent a ph hs (Some 0)) omega t globalGain scalar
  /\
  calculateComponentDisplacement (mkComponent a ph None None) omega t globalGain scalar
  = calculateComponentDisplacement (mkComponent a ph (Some []) (Some 0)) omega t globalGain scalar.
Proof.
  unfold calculateComponentDisplacement, componentVal; simpl.
  rewrite JSFacts.truthy_zero; simpl.
  repeat split; reflexivity.
Qed.

End ComponentClaims.

(** ** The interpolation kernel *)

Section Kernel.
Import OdsMath.

Lemma weightOf_pos pw d : 0 < weightOf pw d.
Proof.
  unfold weightOf.
  pose proof (JSFacts.Math_pow_nonneg d pw).
  apply Rdiv_lt_0_compat; lra.
Qed.

Lemma weightOf_at_zero pw : weightOf pw 0 = 10.
Proof. unfold weightOf; rewrite JSFacts.Math_pow_zero; lra. Qed.

(** [Math.pow d power] grows strictly with [d] on [d >= 0]. *)
Lemma Math_pow_increasing pw d1 d2 :
  0 < pw -> 0 <= d1 -> d1 < d2 -> JS.Math_pow d1 pw < JS.Math_pow d2 pw.
Proof.
  intros Hp H1 H12; unfold JS.Math_pow.
  destruct (Rlt_dec 0 d2) as [_ | N]; [| lra].
  destruct (Rlt_dec 0 d1) as [P1 | _].
  - apply Rlt_Rpower_l; lra.
  - apply exp_pos.
Qed.

Lemma weightOf_decreasing pw d1 d2 :
  0 < pw -> 0 <= d1 -> d1 < d2 -> weightOf pw d2 < weightOf pw d1.
Proof.
  intros Hp H1 H12; unfold weightOf.
  pose proof (Math_pow_increasing pw d1 d2 Hp H1 H12).
  pose proof (JSFacts.Math_pow_nonneg d1 pw).
  unfold Rdiv; rewrite !Rmult_1_l.
  apply Rinv_lt_contravar; [| lra].
  apply Rmult_lt_0_compat; lra.
Qed.

Lemma dist_nonneg x y z p : 0 <= dist x y z p.
Proof. unfold dist; destruct (position p) as [[p0 p1] p2]; apply sqrt_pos. Qed.

Lemma dist_self i l x y z h v a r :
  dist x y z (mkPoint i l (x, y, z) h v a r) = 0.
Proof.
  unfold dist; simpl.
  replace ((x - x) * (x - x) + (y - y) * (y - y) + (z - z) * (z - z)) with 0 by ring.
  apply sqrt_0.
Qed.

Variables (pw x y z t omega : R).

(** The loop only ever adds positive weights. *)
Lemma loop_totalWeight_mono g ps : forall acc,
  totalWeight acc <= totalWeight (fold_left (sensorStep pw x y z t omega g) ps acc).
Proof.
  induction ps as [| p ps IH]; intro acc; simpl; [lra |].
  eapply Rle_trans; [| apply IH]; simpl.
  pose proof (weightOf_pos pw (dist x y z p)); lra.
Qed.

Lemma loop_totalWeight_pos g p ps :
  0 < totalWeight (sensorLoop pw x y z t omega g (p :: ps)).
Proof.
  unfold sensorLoop; simpl.
  eapply Rlt_le_trans; [| apply loop_totalWeight_mono]; simpl.
  pose proof (weightOf_pos pw (dist x y z p)); lra.
Qed.

(** The loop run with gain [g] accumulates [g] times what it accumulates
    with gain [1], under the same total weight. *)
Lemma loop_gain g ps : forall accg acc1,
  totalWeight accg = totalWeight acc1 ->
  displacement accg = multiplyScalar (displacement acc1) g ->
  let rg := fold_left (sensorStep pw x y z t omega g) ps accg in
  let r1 := fold_left (sensorStep pw x y z t omega 1) ps acc1 in
  totalWeight rg = totalWeight r1 /\
  displacement rg = multiplyScalar (displacement r1) g.
Proof.
  induction ps as [| p ps IH]; intros accg acc1 Hw Hd; simpl; [tauto |].
  apply IH; simpl; [now rewrite Hw |].
  rewrite Hd; unfold multiplyScalar, calculateComponentDisplacement; simpl.
  f_equal; ring.
Qed.

End Kernel.

Section KernelClaims.
Import OdsMath.

(** C3. Every weight [1 / (d^3.5 + 0.1)] is strictly positive for [d >= 0];
    with at least one sensor in the roster the accumulated total weight is
    strictly positive, so the final division is by a non-zero number; with
    an empty roster nothing is divided and the zero vector comes back. *)
Theorem kernel_total_weight_positive
    (d x y z t animationRpm globalGain : R)
    (p : MeasurementPoint) (ps : list MeasurementPoint) :
  0 <= d ->
  let omega := animationRpm * 2 * PI / 60 in
  let acc := sensorLoop power x y z t omega globalGain (p :: ps) in
  weightOf power d = 1 / (JS.Math_pow d 3.5 + 0.1) /\
  0 < weightOf power d /\
  (forall q, In q (p :: ps) -> 0 < weightOf power (dist x y z q)) /\
  0 < totalWeight acc /\
  totalWeight acc <> 0 /\
  calculateVertexDisplacement x y z t animationRpm (p :: ps) globalGain
  = divideScalar (displacement acc) (totalWeight acc) /\
  totalWeight (sensorLoop power x y z t omega globalGain []) = 0 /\
  calculateVertexDisplacement x y z t animationRpm [] globalGain
  = mkVector3 0 0 0.
Proof.
  intros Hd omega acc.
  pose proof (loop_totalWeight_pos power x y z t omega globalGain p ps) as Hpos.
  fold acc in Hpos.
  repeat split.
  - apply weightOf_pos.
  - intros q _; apply weightOf_pos.
  - exact Hpos.
  - lra.
  - unfold calculateVertexDisplacement, calculateVertexDisplacementWith.
    fold omega; fold acc.
    now rewrite JSFacts.gt_true.
  - unfold calculateVertexDisplacement, calculateVertexDisplacementWith; simpl.
    rewrite JSFacts.gt_false; [reflexivity | lra].
Qed.

Lemma kernel_total_weight_positive_witness :
  let c := mkComponent 1 0 None None in
  let p := mkPoint "s1" "Sensor" (0, 0, 0) c c c None in
  0 < weightOf power 2 /\
  calculateVertexDisplacement 1 2 3 0 60 [] 10 = mkVector3 0 0 0.
Proof.
  intros c p.
  pose proof (kernel_total_weight_positive 2 1 2 3 0 60 10 p []) as H.
  assert (H2 : 0 <= 2) by lra.
  specialize (H H2); simpl in H.
  split; [apply H | apply H].
Defined.

(** C4. With one sensor in the roster, the kernel queried at that sensor's
    position returns on each axis the sensor's waveform value times
    [globalGain] and the unit scalar [0.015], whatever the weighting
    exponent.  A sensor at the origin with vertical amplitude [1] and phase
    [0], at [animationRpm = 60], [globalGain = 1] and [t = 0.25], gives
    [1 * 0.015] on the vertical axis. *)
Theorem single_sensor_at_own_position
    (pw : R) (i l : string) (x y z : R) (h v a : VibrationComponent)
    (r : option bool) (t animationRpm globalGain : R) :
  0 < pw ->
  let omega := animationRpm * 2 * PI / 60 in
  calculateVertexDisplacementWith pw x y z t animationRpm
    [mkPoint i l (x, y, z) h v a r] globalGain
  = mkVector3 (componentVal h omega t * globalGain * 0.015)
              (componentVal v omega t * globalGain * 0.015)
              (componentVal a omega t * globalGain * 0.015)
  /\
  vy (calculateVertexDisplacement 0 0 0 0.25 60
        [mkPoint i l (0, 0, 0) h (mkComponent 1 0 None None) a r] 1)
  = 1 * 0.015.
Proof.
  intros _ omega.
  assert (G : forall pw' x' y' z' t' rpm' g' v',
             calculateVertexDisplacementWith pw' x' y' z' t' rpm'
               [mkPoint i l (x', y', z') h v' a r] g'
             = mkVector3 (componentVal h (rpm' * 2 * PI / 60) t' * g' * 0.015)
                         (componentVal v' (rpm' * 2 * PI / 60) t' * g' * 0.015)
                         (componentVal a (rpm' * 2 * PI / 60) t' * g' * 0.015)).
  { intros. unfold calculateVertexDisplacementWith, sensorLoop; simpl.
    rewrite dist_self, weightOf_at_zero.
    rewrite JSFacts.gt_true by lra.
    unfold divideScalar, calculateComponentDisplacement, SCALAR; simpl.
    f_equal; lra. }
  split; [apply G |].
  unfold calculateVertexDisplacement; rewrite G; simpl.
  unfold componentVal; simpl.
  replace (60 * 2 * PI / 60 * 0.25 + 0 * PI / 180) with (PI / 2) by lra.
  rewrite sin_PI2; lra.
Qed.

Lemma single_sensor_at_own_position_witness :
  let c := mkComponent 1 0 None None in
  vy (calculateVertexDisplacement 0 0 0 0.25 60
        [mkPoint "s1" "Sensor" (0, 0, 0) c c c None] 1)
  = 1 * 0.015.
Proof.
  intro c.
  apply (single_sensor_at_own_position 2 "s1" "Sensor" 0 0 0 c c c None 0 60 1).
  lra.
Defined.

(** C7. The weight [1 / (d^3.5 + 0.1)] is strictly positive and strictly
    decreasing on [d >= 0]; of two sensors at different distances from the
    query point, the closer one's share of the total weight is strictly the
    larger, and the blended result is the sum of the sensors' values taken
    with those shares. *)
Theorem closer_sensor_weighs_more
    (d1 d2 x y z t animationRpm globalGain : R) (p1 p2 : MeasurementPoint) :
  0 <= d1 -> d1 < d2 ->
  dist x y z p1 < dist x y z p2 ->
  let omega := animationRpm * 2 * PI / 60 in
  let w1 := weightOf power (dist x y z p1) in
  let w2 := weightOf power (dist x y z p2) in
  let total := totalWeight (sensorLoop power x y z t omega globalGain [p1; p2]) in
  let mag c := calculateComponentDisplacement c omega t globalGain SCALAR in
  (0 < weightOf power d2 /\ weightOf power d2 < weightOf power d1) /\
  (weightOf power d2 / (weightOf power d1 + weightOf power d2)
   < weightOf power d1 / (weightOf power d1 + weightOf power d2)) /\
  total = w1 + w2 /\
  0 < w2 / total /\
  w2 / total < w1 / total /\
  calculateVertexDisplacement x y z t animationRpm [p1; p2] globalGain
  = mkVector3
      (w1 / total * mag (horizontal p1) + w2 / total * mag (horizontal p2))
      (w1 / total * mag (vertical p1) + w2 / total * mag (vertical p2))
      (w1 / total * mag (axial p1) + w2 / total * mag (axial p2)).
Proof.
  intros H1 H12 Hd omega w1 w2 total mag.
  assert (Hp : 0 < power) by (unfold power; lra).
  pose proof (weightOf_pos power d1) as P1.
  pose proof (weightOf_pos power d2) as P2.
  pose proof (weightOf_decreasing power d1 d2 Hp H1 H12) as D.
  pose proof (weightOf_pos power (dist x y z p1)) as Q1.
  pose proof (weightOf_pos power (dist x y z p2)) as Q2.
  pose proof (weightOf_decreasing power _ _ Hp (dist_nonneg x y z p1) Hd) as E.
  fold w1 in Q1, E; fold w2 in Q2, E.
  assert (T : total = w1 + w2).
  { subst total; unfold sensorLoop; simpl; fold w1 w2; ring. }
  assert (inv_pos : forall s, 0 < s -> 0 < / s) by (intros; now apply Rinv_0_lt_compat).
  repeat split; try assumption.
  - unfold Rdiv; apply Rmult_lt_compat_r; [apply inv_pos; lra | exact D].
  - rewrite T; apply Rdiv_lt_0_compat; lra.
  - rewrite T; unfold Rdiv; apply Rmult_lt_compat_r; [apply inv_pos; lra | exact E].
  - unfold calculateVertexDisplacement, calculateVertexDisplacementWith.
    fold omega.
    assert (T' : totalWeight (sensorLoop power x y z t omega globalGain [p1; p2]) = w1 + w2)
      by exact T.
    rewrite T', JSFacts.gt_true by lra.
    rewrite T; unfold sensorLoop, divideScalar; simpl.
    fold w1 w2; fold (mag (horizontal p1)) (mag (horizontal p2))
      (mag (vertical p1)) (mag (vertical p2)) (mag (axial p1)) (mag (axial p2)).
    f_equal; field; lra.
Qed.

Lemma closer_sensor_weighs_more_witness :
  let c := mkComponent 1 0 None None in
  let p1 := mkPoint "near" "Near" (0, 0, 0) c c c None in
  let p2 := mkPoint "far" "Far" (1, 0, 0) c c c None in
  weightOf power 1 < weightOf power 0 /\
  weightOf power (dist 0 0 0 p2) / totalWeight (sensorLoop power 0 0 0 0 (60 * 2 * PI / 60) 1 [p1; p2])
  < weightOf power (dist 0 0 0 p1) / totalWeight (sensorLoop power 0 0 0 0 (60 * 2 * PI / 60) 1 [p1; p2]).
Proof.
  intros c p1 p2.
  assert (H0 : 0 <= 0) by lra.
  assert (H1 : 0 < 1) by lra.
  assert (Hd : dist 0 0 0 p1 < dist 0 0 0 p2).
  { unfold p1, p2, dist; simpl.
    replace ((0 - 0) * (0 - 0) + (0 - 0) * (0 - 0) + (0 - 0) * (0 - 0)) with 0 by ring.
    replace ((0 - 1) * (0 - 1) + (0 - 0) * (0 - 0) + (0 - 0) * (0 - 0)) with 1 by ring.
    rewrite sqrt_0, sqrt_1; lra. }
  pose proof (closer_sensor_weighs_more 0 1 0 0 0 0 60 1 p1 p2 H0 H1 Hd) as H.
  simpl in H.
  split; [apply H | apply H].
Defined.

(** C10. The kernel's output is homogeneous in [globalGain]: with gain [g]
    it is [g] times the output with gain [1], on each of the three axes. *)
Theorem kernel_homogeneous_in_gain
    (x y z t animationRpm : R) (points : list MeasurementPoint) (g : R) :
  let at_g := calculateVertexDisplacement x y z t animationRpm points g in
  let at_1 := calculateVertexDisplacement x y z t animationRpm points 1 in
  vx at_g = g * vx at_1 /\ vy at_g = g * vy at_1 /\ vz at_g = g * vz at_1.
Proof.
  intros at_g at_1; subst at_g at_1.
  unfold calculateVertexDisplacement, calculateVertexDisplacementWith, sensorLoop.
  set (omega := animationRpm * 2 * PI / 60).
  destruct (loop_gain power x y z t omega g points
              (mkAccum (mkVector3 0 0 0) 0) (mkAccum (mkVector3 0 0 0) 0))
    as [Hw Hd]; [reflexivity | unfold multiplyScalar; simpl; f_equal; ring |].
  rewrite Hw, Hd.
  destruct (JS.gt _ 0); unfold divideScalar, multiplyScalar; simpl;
    repeat split; ring.
Qed.

End KernelClaims.

(** ** The orbit plot *)

Section Orbit.
Import OrbitWindow.

Lemma INR_points : INR points = 720.
Proof. rewrite INR_IZR_INZ; reflexivity. Qed.

Lemma length_orbitSamples probeX probeY :
  List.length (orbitSamples probeX probeY) = S points.
Proof. unfold orbitSamples, loopIndices; now rewrite length_map, length_seq. Qed.

Lemma nth_loopIndices i :
  (i <= points)%nat -> nth_error loopIndices i = Some i.
Proof. intro H; unfold loopIndices; rewrite nth_error_seq.
  destruct (Nat.ltb_spec i (S points)); [reflexivity | lia]. Qed.

Lemma nth_orbitSamples probeX probeY i :
  (i <= points)%nat ->
  nth_error (orbitSamples probeX probeY) i = Some (sample probeX probeY i).
Proof.
  intro H; unfold orbitSamples.
  now rewrite nth_error_map, nth_loopIndices.
Qed.

Lemma sampleTime_first : sampleTime 0 = 0.
Proof. unfold sampleTime; simpl; unfold Rdiv; ring. Qed.

Lemma sampleTime_last : sampleTime points = numCycles * (2 * PI).
Proof.
  unfold sampleTime, duration; rewrite INR_points; field.
Qed.

Lemma sampleTime_range i :
  (i <= points)%nat -> 0 <= sampleTime i <= numCycles * (2 * PI).
Proof.
  intro H; unfold sampleTime, duration, numCycles.
  pose proof (pos_INR i) as P.
  apply le_INR in H; rewrite INR_points in *.
  pose proof PI_RGT_0 as Hpi.
  assert (Q : 0 <= INR i / 720 <= 1) by (split; lra).
  split; nra.
Qed.

(** [calcVal] runs the harmonics loop of the component model at angular
    velocity [1]. *)
Lemma calcVal_loop comp t hs : forall v,
  fold_left (calcStep comp t) hs v
  = fold_left (OdsMath.harmonicStep comp 1 t) hs v.
Proof.
  induction hs as [| h hs IH]; intro v; simpl; [reflexivity |].
  rewrite IH; f_equal.
  unfold calcStep, OdsMath.harmonicStep.
  replace (1 * order h * t) with (t * order h) by ring; ring.
Qed.

(** [calcVal] is the component model's waveform at angular velocity [1]
    with the noise term left out. *)
Lemma calcVal_eq comp t :
  calcVal comp t
  = OdsMath.componentVal
      (mkComponent (amplitude comp) (phase comp) (harmonics comp) None) 1 t.
Proof.
  rewrite componentVal_eq; unfold calcVal, Spec.harmonicList; simpl.
  replace (1 * t + phase comp * PI / 180) with (t + phase comp * PI / 180) by ring.
  destruct (harmonics comp) as [hs |]; simpl.
  - rewrite calcVal_loop.
    replace (sin (t + phase comp * PI / 180) * amplitude comp)
      with (amplitude comp * sin (t + phase comp * PI / 180)) by ring.
    unfold OdsMath.harmonicStep; simpl; ring.
  - ring.
Qed.

Lemma calcVal_noiseOff comp t :
  Spec.noiseOff comp -> calcVal comp t = OdsMath.componentVal comp 1 t.
Proof.
  intro H; rewrite calcVal_eq, !componentVal_eq; simpl.
  unfold Spec.noiseOff in H; unfold Spec.harmonicList; simpl.
  f_equal.
  destruct (noise comp) as [n |]; [| reflexivity].
  now rewrite JSFacts.gt_false.
Qed.

End Orbit.

Section OrbitClaims.
Import OrbitWindow.

(** The claim C2 as stated fails on the sampling loop: it visits the
    indices [0 .. 720], so there are [721] samples and the last one sits at
    [t = 2 * 2 PI], outside the half-open window; a component with noise
    [1] is sampled without its noise term; and with a quarter-order
    harmonic the last sample differs from the first. *)
Lemma orbit_sampler_counterexample :
  let noisy := mkComponent 0 0 None (Some 1) in
  let quarter := mkComponent 1 0 (Some [mkHarmonic 0.25 1 90]) None in
  List.length (orbitSamples noisy noisy) <> 720%nat /\
  ~ sampleTime 720 < numCycles * (2 * PI) /\
  nth_error (orbitSamples noisy noisy) 36
  <> Some (OdsMath.componentVal noisy 1 (sampleTime 36),
           OdsMath.componentVal noisy 1 (sampleTime 36)) /\
  nth_error (orbitSamples quarter quarter) 0
  <> nth_error (orbitSamples quarter quarter) 720.
Proof.
  intros noisy quarter.
  assert (T36 : sampleTime 36 = PI / 5).
  { unfold sampleTime, duration, numCycles; rewrite INR_points.
    rewrite INR_IZR_INZ; change (Z.of_nat 36) with 36%Z; field. }
  assert (T720 : sampleTime 720 = 4 * PI).
  { change 720%nat with points; rewrite sampleTime_last; unfold numCycles; ring. }
  split; [| split; [| split]].
  - rewrite length_orbitSamples; unfold points; lia.
  - change 720%nat with points; rewrite sampleTime_last; lra.
  - rewrite nth_orbitSamples by (unfold points; lia).
    unfold sample; rewrite T36; intro H; injection H as H _.
    revert H; unfold calcVal, OdsMath.componentVal, noisy; simpl.
    rewrite JSFacts.truthy_true, JSFacts.gt_true by lra; simpl.
    replace (1 * 25 * (PI / 5)) with (PI + 2 * INR 2 * PI) by (simpl; lra).
    replace (1 * 25 * 1.3 * (PI / 5)) with (PI / 2 + 2 * INR 3 * PI) by (simpl; lra).
    rewrite !sin_period, sin_PI, sin_PI2; lra.
  - rewrite !nth_orbitSamples by (unfold points; lia).
    unfold sample; rewrite T720, sampleTime_first.
    intro H; injection H as H _.
    revert H; unfold calcVal, calcStep, quarter; simpl.
    replace (0 + 0 * PI / 180) with 0 by lra.
    replace (0 * 0.25 + (0 + 90) * PI / 180) with (PI / 2) by lra.
    replace (4 * PI + 0 * PI / 180) with (0 + 2 * INR 2 * PI) by (simpl; lra).
    replace (4 * PI * 0.25 + (0 + 90) * PI / 180) with (3 * (PI / 2)) by lra.
    rewrite sin_period, sin_0, sin_PI2, sin_3PI2; lra.
Qed.

(** C2, amended.  With the default settings (720 points, 2 cycles) the
    sampling loop visits the indices [0 .. 720]: the trajectory has [721]
    samples, sample [i] sits at [t = i / 720 * (2 * 2 PI)], which ranges
    over the closed window from [0] (first sample) to [2 * 2 PI] (last
    sample), and its coordinates are [(calcVal x t, calcVal y t)]; for a
    component whose noise term is off, [calcVal] is the component model's
    waveform at angular velocity [1]. *)
Theorem orbit_sampler_trajectory
    (probeX probeY : VibrationComponent) (i : nat) :
  (i <= points)%nat ->
  (points = 720%nat /\ numCycles = 2) /\
  List.length (orbitSamples probeX probeY) = 721%nat /\
  nth_error (orbitSamples probeX probeY) i
  = Some (calcVal probeX (sampleTime i), calcVal probeY (sampleTime i)) /\
  sampleTime i = INR i / 720 * (numCycles * 2 * PI) /\
  0 <= sampleTime i <= numCycles * (2 * PI) /\
  sampleTime 0 = 0 /\
  sampleTime points = numCycles * (2 * PI) /\
  (Spec.noiseOff probeX ->
   calcVal probeX (sampleTime i) = OdsMath.componentVal probeX 1 (sampleTime i)) /\
  (Spec.noiseOff probeY ->
   calcVal probeY (sampleTime i) = OdsMath.componentVal probeY 1 (sampleTime i)).
Proof.
  intro H.
  split; [split; reflexivity |].
  split; [rewrite length_orbitSamples; reflexivity |].
  split; [now apply nth_orbitSamples |].
  split; [unfold sampleTime, duration; now rewrite INR_points |].
  split; [now apply sampleTime_range |].
  split; [apply sampleTime_first |].
  split; [apply sampleTime_last |].
  split; apply calcVal_noiseOff.
Qed.

Lemma orbit_sampler_trajectory_witness :
  let c := mkComponent 40 0 (Some [mkHarmonic 2 0.5 0]) None in
  nth_error (orbitSamples c c) 180
  = Some (calcVal c (sampleTime 180), calcVal c (sampleTime 180)).
Proof.
  intro c.
  assert (H : (180 <= points)%nat) by (unfold points; lia).
  apply (orbit_sampler_trajectory c c 180 H).
Defined.

End OrbitClaims.

(** ** Auto-scale of the orbit plot *)

Section AutoScale.
Import OrbitWindow.

Lemma sin_abs_le_1 a : Rabs (sin a) <= 1.
Proof. apply Rabs_le, SIN_bound. Qed.

(** Each pass of [calcVal]'s loop moves the value by at most what the same
    pass of [getPeakAmp]'s loop adds to the peak. *)
Lemma peak_loop_bound comp t hs : forall v pk,
  0 <= amplitude comp ->
  Forall (fun h => 0 <= amplitudeRatio h) hs ->
  Rabs v <= pk ->
  Rabs (fold_left (calcStep comp t) hs v)
  <= fold_left (fun peak h => peak + amplitude comp * amplitudeRatio h) hs pk.
Proof.
  induction hs as [| h hs IH]; intros v pk Ha Hr Hv; simpl; [exact Hv |].
  inversion Hr as [| ? ? Hh Hr']; subst.
  apply IH; trivial.
  unfold calcStep.
  eapply Rle_trans; [apply Rabs_triang |].
  rewrite Rabs_mult.
  set (k := amplitude comp * amplitudeRatio h) in *.
  assert (0 <= k) by (unfold k; now apply Rmult_le_pos).
  rewrite (Rabs_pos_eq k) by trivial.
  pose proof (sin_abs_le_1 (t * order h + (phase comp + phaseShift h) * PI / 180)).
  pose proof (Rabs_pos (sin (t * order h + (phase comp + phaseShift h) * PI / 180))).
  nra.
Qed.

Lemma calcVal_le_peak comp t :
  Spec.nonNegative comp -> Rabs (calcVal comp t) <= getPeakAmp comp.
Proof.
  intros (Ha & Hr & Hn).
  assert (F : Rabs (amplitude comp * sin (t + phase comp * PI / 180)) <= amplitude comp).
  { rewrite Rabs_mult, (Rabs_pos_eq _ Ha).
    pose proof (sin_abs_le_1 (t + phase comp * PI / 180)).
    pose proof (Rabs_pos (sin (t + phase comp * PI / 180))); nra. }
  assert (B : Rabs (calcVal comp t)
              <= match harmonics comp with
                 | Some hs => fold_left (fun peak h => peak + amplitude comp * amplitudeRatio h)
                                        hs (amplitude comp)
                 | None => amplitude comp
                 end).
  { unfold calcVal, Spec.harmonicList in *.
    destruct (harmonics comp) as [hs |]; [now apply peak_loop_bound | exact F]. }
  unfold getPeakAmp.
  destruct (noise comp) as [n |]; [| exact B].
  destruct (JS.truthy n); lra.
Qed.

(** For parameters in range the peak is the sum the specification names. *)
Lemma getPeakAmp_formula comp :
  Spec.nonNegative comp ->
  getPeakAmp comp
  = fold_left Rplus (map (fun h => amplitude comp * amplitudeRatio h) (Spec.harmonicList comp))
              (amplitude comp)
    + match noise comp with Some n => n | None => 0 end.
Proof.
  intros _; unfold getPeakAmp, Spec.harmonicList.
  assert (L : forall hs pk,
            fold_left (fun peak h => peak + amplitude comp * amplitudeRatio h) hs pk
            = fold_left Rplus (map (fun h => amplitude comp * amplitudeRatio h) hs) pk).
  { induction hs as [| h hs IH]; intro pk; simpl; [reflexivity | apply IH]. }
  destruct (harmonics comp) as [hs |]; rewrite ?L; simpl;
    (destruct (noise comp) as [n |]; [| ring]);
    unfold JS.truthy; destruct (Req_dec_T n 0); subst; ring.
Qed.

(** A value below the larger peak, once scaled, stays within [0.4 / 1.5]
    of the canvas width. *)
Lemma scaled_bound width probeX probeY v :
  0 < width ->
  0 <= Rmax (getPeakAmp probeX) (getPeakAmp probeY) ->
  Rabs v <= Rmax (getPeakAmp probeX) (getPeakAmp probeY) ->
  Rabs (v * scale width probeX probeY) <= width * 0.4 / 1.5.
Proof.
  intros Hw Hm Hv; unfold scale, JS.or_else, JS.truthy, maxAmp.
  set (m := Rmax (getPeakAmp probeX) (getPeakAmp probeY)) in *.
  destruct (Req_dec_T (m * 1.5) 0) as [Z | NZ].
  - assert (v = 0).
    { assert (Rabs v <= 0) by lra.
      pose proof (Rabs_pos v).
      destruct (Req_dec v 0) as [E | E]; [exact E |].
      pose proof (Rabs_pos_lt v E); lra. }
    subst v; rewrite Rmult_0_l, Rabs_R0; lra.
  - assert (Hpos : 0 < m) by lra.
    set (k := width * 0.4 / (m * 1.5)).
    assert (Hk : 0 < k) by (unfold k; apply Rdiv_lt_0_compat; lra).
    rewrite Rabs_mult, (Rabs_pos_eq k) by lra.
    replace (width * 0.4 / 1.5) with (m * k) by (unfold k; field; lra).
    apply Rmult_le_compat_r; lra.
Qed.

Lemma plotted_within width probeX probeY t :
  0 < width ->
  Spec.nonNegative probeX -> Spec.nonNegative probeY ->
  Rabs (calcVal probeX t * scale width probeX probeY) <= width * 0.4 / 1.5 /\
  Rabs (calcVal probeY t * scale width probeX probeY) <= width * 0.4 / 1.5.
Proof.
  intros Hw HX HY.
  pose proof (calcVal_le_peak probeX t HX) as BX.
  pose proof (calcVal_le_peak probeY t HY) as BY.
  pose proof (Rabs_pos (calcVal probeX t)).
  pose proof (Rabs_pos (calcVal probeY t)).
  pose proof (Rmax_l (getPeakAmp probeX) (getPeakAmp probeY)).
  pose proof (Rmax_r (getPeakAmp probeX) (getPeakAmp probeY)).
  split; apply scaled_bound; trivial; lra.
Qed.

(** C6. For components with non-negative amplitude, amplitude ratios and
    noise, the peak is [amplitude + sum of amplitude * amplitudeRatio + noise],
    the scale is taken from the larger of the two peaks times [1.5], and
    every point of the plotted trajectory lies strictly inside the canvas:
    the trajectory never clips. *)
Theorem orbit_never_clips
    (probeX probeY : VibrationComponent) (c : PathCmd) :
  Spec.nonNegative probeX -> Spec.nonNegative probeY ->
  In c (orbitPath canvasWidth canvasHeight probeX probeY) ->
  let peak comp :=
    fold_left Rplus (map (fun h => amplitude comp * amplitudeRatio h) (Spec.harmonicList comp))
              (amplitude comp)
    + match noise comp with Some n => n | None => 0 end in
  (getPeakAmp probeX = peak probeX /\ getPeakAmp probeY = peak probeY) /\
  maxAmp probeX probeY = Rmax (peak probeX) (peak probeY) * 1.5 /\
  (forall t,
     Rabs (calcVal probeX t * scale canvasWidth probeX probeY) < canvasWidth / 2 /\
     Rabs (calcVal probeY t * scale canvasWidth probeX probeY) < canvasHeight / 2) /\
  0 < fst (cmdPoint c) < canvasWidth /\
  0 < snd (cmdPoint c) < canvasHeight.
Proof.
  intros HX HY Hin peak.
  assert (W : 0 < canvasWidth) by (unfold canvasWidth; lra).
  assert (B : forall t,
            Rabs (calcVal probeX t * scale canvasWidth probeX probeY) < canvasWidth / 2 /\
            Rabs (calcVal probeY t * scale canvasWidth probeX probeY) < canvasHeight / 2).
  { intro t; destruct (plotted_within canvasWidth probeX probeY t W HX HY) as [BX BY].
    unfold canvasWidth, canvasHeight in *; split; lra. }
  split; [split; now apply getPeakAmp_formula |].
  split; [unfold maxAmp; subst peak; simpl; now rewrite <- !getPeakAmp_formula |].
  split; [exact B |].
  unfold orbitPath in Hin; apply in_map_iff in Hin as (i & <- & _).
  destruct (B (sampleTime i)) as [BX BY].
  apply Rabs_def2 in BX, BY.
  unfold plot, sample, canvasWidth, canvasHeight in *.
  destruct (i =? 0)%nat; simpl; lra.
Qed.

Lemma orbit_never_clips_witness :
  let x := mkComponent 40 0 (Some []) (Some 0) in
  let y := mkComponent 40 90 None None in
  0 < fst (cmdPoint (plot canvasWidth canvasHeight x y 0)) < canvasWidth /\
  0 < snd (cmdPoint (plot canvasWidth canvasHeight x y 0)) < canvasHeight.
Proof.
  intros x y.
  assert (HX : Spec.nonNegative x).
  { unfold Spec.nonNegative, x; simpl; repeat split; [lra | constructor | lra]. }
  assert (HY : Spec.nonNegative y).
  { unfold Spec.nonNegative, y; simpl; repeat split; [lra | constructor]. }
  assert (Hin : In (plot canvasWidth canvasHeight x y 0)
                   (orbitPath canvasWidth canvasHeight x y)).
  { unfold orbitPath, loopIndices; rewrite <- cons_seq; simpl; left; reflexivity. }
  apply (orbit_never_clips x y _ HX HY Hin).
Defined.

End AutoScale.

(** ** The simulation clock *)

Section ClockFacts.
Import Clock.

Lemma advance_mono playing delta time :
  0 <= delta -> time <= advance playing delta time.
Proof. intro H; unfold advance; destruct playing; lra. Qed.

Lemma DynamicVector_frame_mono time f :
  0 <= vDelta f -> time <= DynamicVector_useFrame time f.
Proof.
  intro H; unfold DynamicVector_useFrame.
  destruct (groupRefSet f); simpl; [now apply advance_mono | lra].
Qed.

Lemma DeformableMesh_frame_mono time f :
  0 <= mDelta f -> time <= DeformableMesh_useFrame time f.
Proof.
  intro H; unfold DeformableMesh_useFrame.
  destruct (meshRefSet f), (hasPositions f); simpl;
    solve [now apply advance_mono | lra].
Qed.

Lemma runVector_mono frames : forall time,
  Forall (fun f => 0 <= vDelta f) frames -> time <= runVector frames time.
Proof.
  unfold runVector.
  induction frames as [| f frames IH]; intros time H; simpl; [lra |].
  inversion H as [| ? ? Hf Hrest]; subst.
  eapply Rle_trans; [apply (DynamicVector_frame_mono time f Hf) | now apply IH].
Qed.

Lemma runMesh_mono frames : forall time,
  Forall (fun f => 0 <= mDelta f) frames -> time <= runMesh frames time.
Proof.
  unfold runMesh.
  induction frames as [| f frames IH]; intros time H; simpl; [lra |].
  inversion H as [| ? ? Hf Hrest]; subst.
  eapply Rle_trans; [apply (DeformableMesh_frame_mono time f Hf) | now apply IH].
Qed.

(** The claim C8 as stated fails on the callbacks' guards: a frame taken
    while playing, with a positive delta, that is stopped by a guard
    ([groupRef] or [meshRef] not attached, or a geometry without a
    position attribute) leaves the clock where it was. *)
Lemma clock_guard_counterexample :
  (DynamicVector_useFrame 0 (mkVectorFrame false true 0.25) = 0 /\
   DynamicVector_useFrame 0 (mkVectorFrame false true 0.25) <> 0 + 0.25) /\
  (DeformableMesh_useFrame 0 (mkMeshFrame false true true 0.25) = 0 /\
   DeformableMesh_useFrame 0 (mkMeshFrame false true true 0.25) <> 0 + 0.25) /\
  (DeformableMesh_useFrame 0 (mkMeshFrame true false true 0.25) = 0 /\
   DeformableMesh_useFrame 0 (mkMeshFrame true false true 0.25) <> 0 + 0.25).
Proof.
  unfold DynamicVector_useFrame, DeformableMesh_useFrame; simpl.
  repeat split; lra.
Qed.

(** C8, amended.  A frame that passes the guards of its callback adds
    exactly its delta to the clock while playing and leaves the clock
    exactly as it was while paused; a frame stopped by a guard leaves the
    clock as it was, playing or paused; and over any sequence of frames
    with non-negative deltas the clock never decreases: each later reading
    is at least each earlier one.  This holds for the clock of
    [DynamicVector] and for the clock of [DeformableMesh]. *)
Theorem clock_running_paused_monotonic
    (delta time : R) (playing hasPos : bool)
    (before after : list VectorFrame) (before' after' : list MeshFrame) :
  0 <= delta ->
  Forall (fun f => 0 <= vDelta f) (before ++ after) ->
  Forall (fun f => 0 <= mDelta f) (before' ++ after') ->
  (advance true delta time = time + delta /\
   advance false delta time = time) /\
  (DynamicVector_useFrame time (mkVectorFrame true true delta) = time + delta /\
   DynamicVector_useFrame time (mkVectorFrame true false delta) = time /\
   DynamicVector_useFrame time (mkVectorFrame false playing delta) = time) /\
  (DeformableMesh_useFrame time (mkMeshFrame true true true delta) = time + delta /\
   DeformableMesh_useFrame time (mkMeshFrame true true false delta) = time /\
   DeformableMesh_useFrame time (mkMeshFrame false hasPos playing delta) = time /\
   DeformableMesh_useFrame time (mkMeshFrame true false playing delta) = time) /\
  (time <= runVector before time /\
   runVector before time <= runVector (before ++ after) time) /\
  (time <= runMesh before' time /\
   runMesh before' time <= runMesh (before' ++ after') time).
Proof.
  intros Hd HV HM.
  apply Forall_app in HV as [HV1 HV2].
  apply Forall_app in HM as [HM1 HM2].
  repeat split; try reflexivity.
  - now apply runVector_mono.
  - unfold runVector; rewrite fold_left_app; now apply runVector_mono.
  - now apply runMesh_mono.
  - unfold runMesh; rewrite fold_left_app; now apply runMesh_mono.
Qed.

Lemma clock_running_paused_monotonic_witness :
  let playing := mkVectorFrame true true 0.016 in
  let paused := mkVectorFrame true false 0.016 in
  runVector [playing; paused] 1 <= runVector ([playing; paused] ++ [playing]) 1.
Proof.
  intros playing paused.
  assert (Hd : 0 <= 0.016) by lra.
  assert (HV : Forall (fun f => 0 <= vDelta f) ([playing; paused] ++ [playing])).
  { simpl; repeat constructor; simpl; lra. }
  assert (HM : Forall (fun f => 0 <= mDelta f) ([] ++ [])) by constructor.
  apply (clock_running_paused_monotonic 0.016 1 true true
           [playing; paused] [playing] [] [] Hd HV HM).
Defined.

End ClockFacts.

(** ** More on the component model *)

Section ComponentMore.
Import OdsMath.

(** A sine is unchanged when its argument moves by a whole number of
    turns. *)
Lemma sin_shift_turns (k : nat) a b : b = a + 2 * INR k * PI -> sin b = sin a.
Proof. intros ->; apply sin_period. Qed.

(** The harmonics loop started from [v1] and from [v2], with terms that
    agree one by one, ends in values that differ as [v1] and [v2] do. *)
Lemma harmonics_loop_shift comp omega t t' hs :
  Forall (fun h =>
            sin (omega * order h * t' + (phase comp + phaseShift h) * PI / 180)
            = sin (omega * order h * t + (phase comp + phaseShift h) * PI / 180)) hs ->
  forall v1 v2, v1 = v2 ->
  fold_left (harmonicStep comp omega t') hs v1
  = fold_left (harmonicStep comp omega t) hs v2.
Proof.
  induction 1 as [| h hs Hh _ IH]; intros v1 v2 E; simpl; [exact E |].
  apply IH; unfold harmonicStep; now rewrite Hh, E.
Qed.

(** X1. The waveform repeats after two shaft revolutions when every harmonic
    order is a multiple of one half, noise included. *)
Theorem waveform_repeats_after_two_revolutions
    (comp : VibrationComponent) (omega t : R) :
  omega <> 0 ->
  Forall (fun h => exists k : nat, 2 * order h = INR k) (Spec.harmonicList comp) ->
  componentVal comp omega (t + 2 * (2 * PI / omega)) = componentVal comp omega t.
Proof.
  intros Hw Hk; rewrite !componentVal_eq.
  f_equal.
  - apply harmonics_loop_shift.
    + eapply Forall_impl; [| exact Hk].
      intros h [k E]; simpl.
      apply (sin_shift_turns k).
      rewrite <- E; field; exact Hw.
    + f_equal. apply (sin_shift_turns 2); simpl; field; exact Hw.
  - destruct (noise comp) as [n |]; [| reflexivity].
    destruct (JS.gt n 0); [| reflexivity].
    set (t' := t + 2 * (2 * PI / omega)).
    assert (S1 : sin (omega * 25 * t') = sin (omega * 25 * t)).
    { apply (sin_shift_turns 50); unfold t'.
      rewrite INR_IZR_INZ; change (Z.of_nat 50) with 50%Z; field; exact Hw. }
    assert (S2 : sin (omega * 25 * 1.3 * t') = sin (omega * 25 * 1.3 * t)).
    { apply (sin_shift_turns 65); unfold t'.
      rewrite INR_IZR_INZ; change (Z.of_nat 65) with 65%Z.
      replace 1.3 with (13 / 10) by lra; field; exact Hw. }
    now rewrite S1, S2.
Qed.

Lemma waveform_repeats_after_two_revolutions_witness :
  let rub := mkComponent 30 0
               (Some [mkHarmonic 0.5 0.3 0; mkHarmonic 2.0 0.3 180; mkHarmonic 3.0 0.2 0])
               (Some 10) in
  componentVal rub 1 (0 + 2 * (2 * PI / 1)) = componentVal rub 1 0.
Proof.
  intro rub.
  apply (waveform_repeats_after_two_revolutions rub 1 0); [lra |].
  unfold rub, Spec.harmonicList; simpl.
  repeat constructor.
  - exists 1%nat; simpl; lra.
  - exists 4%nat; simpl; lra.
  - exists 6%nat; simpl; lra.
Defined.

(** X2. With whole-number harmonic orders and the noise term off, the waveform
    repeats after one shaft revolution. *)
Theorem waveform_repeats_after_one_revolution
    (comp : VibrationComponent) (omega t : R) :
  omega <> 0 ->
  Forall (fun h => exists k : nat, order h = INR k) (Spec.harmonicList comp) ->
  Spec.noiseOff comp ->
  componentVal comp omega (t + 2 * PI / omega) = componentVal comp omega t.
Proof.
  intros Hw Hk Hn; rewrite !componentVal_eq.
  f_equal.
  - apply harmonics_loop_shift.
    + eapply Forall_impl; [| exact Hk].
      intros h [k E]; simpl.
      apply (sin_shift_turns k).
      rewrite <- E; field; exact Hw.
    + f_equal. apply (sin_shift_turns 1); simpl; field; exact Hw.
  - unfold Spec.noiseOff in Hn.
    destruct (noise comp) as [n |]; [| reflexivity].
    now rewrite JSFacts.gt_false.
Qed.

Lemma waveform_repeats_after_one_revolution_witness :
  let c := mkComponent 35 0 (Some [mkHarmonic 2 0.5 180]) (Some 0) in
  componentVal c 1 (0 + 2 * PI / 1) = componentVal c 1 0.
Proof.
  intro c.
  apply (waveform_repeats_after_one_revolution c 1 0); [lra | |].
  - unfold c, Spec.harmonicList; simpl.
    repeat constructor. exists 2%nat; simpl; lra.
  - unfold c, Spec.noiseOff; simpl; lra.
Defined.

(** Each pass of the harmonics loop moves the value by at most
    [amplitude * amplitudeRatio]. *)
Lemma harmonics_loop_bound comp omega t hs : forall v pk,
  0 <= amplitude comp ->
  Forall (fun h => 0 <= amplitudeRatio h) hs ->
  Rabs v <= pk ->
  Rabs (fold_left (harmonicStep comp omega t) hs v)
  <= fold_left (fun peak h => peak + amplitude comp * amplitudeRatio h) hs pk.
Proof.
  induction hs as [| h hs IH]; intros v pk Ha Hr Hv; simpl; [exact Hv |].
  inversion Hr as [| ? ? Hh Hr']; subst.
  apply IH; trivial.
  unfold harmonicStep.
  eapply Rle_trans; [apply Rabs_triang |].
  rewrite Rabs_mult.
  set (k := amplitude comp * amplitudeRatio h) in *.
  assert (0 <= k) by (unfold k; now apply Rmult_le_pos).
  rewrite (Rabs_pos_eq k) by trivial.
  set (a := omega * order h * t + (phase comp + phaseShift h) * PI / 180).
  pose proof (sin_abs_le_1 a); pose proof (Rabs_pos (sin a)); nra.
Qed.

Lemma componentVal_band (comp : VibrationComponent) (omega t : R) :
  Spec.nonNegative comp ->
  Rabs (componentVal comp omega t)
  <= OrbitWindow.getPeakAmp comp
     + 0.5 * match noise comp with Some n => n | None => 0 end.
Proof.
  intros (Ha & Hr & Hn).
  rewrite componentVal_eq.
  eapply Rle_trans; [apply Rabs_triang |].
  assert (F : Rabs (sin (omega * t + phase comp * PI / 180) * amplitude comp)
              <= amplitude comp).
  { rewrite Rabs_mult, (Rabs_pos_eq _ Ha).
    set (a := omega * t + phase comp * PI / 180).
    pose proof (sin_abs_le_1 a); pose proof (Rabs_pos (sin a)); nra. }
  pose proof (harmonics_loop_bound comp omega t (Spec.harmonicList comp) _ _ Ha Hr F) as B.
  unfold OrbitWindow.getPeakAmp, Spec.harmonicList in *.
  set (P := match harmonics comp with
            | Some hs => fold_left (fun peak h => peak + amplitude comp * amplitudeRatio h)
                                   hs (amplitude comp)
            | None => amplitude comp
            end).
  assert (B' : Rabs (fold_left (harmonicStep comp omega t)
                       match harmonics comp with Some hs => hs | None => [] end
                       (sin (omega * t + phase comp * PI / 180) * amplitude comp)) <= P).
  { unfold P; destruct (harmonics comp); exact B. }
  clear B.
  destruct (noise comp) as [n |].
  - assert (N : Rabs (if JS.gt n 0
                      then (sin (omega * 25 * t) + 0.5 * sin (omega * 25 * 1.3 * t)) * n
                      else 0) <= 1.5 * n).
    { destruct (JS.gt n 0).
      - rewrite Rabs_mult, (Rabs_pos_eq n Hn).
        pose proof (SIN_bound (omega * 25 * t)).
        pose proof (SIN_bound (omega * 25 * 1.3 * t)).
        assert (Rabs (sin (omega * 25 * t) + 0.5 * sin (omega * 25 * 1.3 * t)) <= 1.5)
          by (apply Rabs_le; lra).
        pose proof (Rabs_pos (sin (omega * 25 * t) + 0.5 * sin (omega * 25 * 1.3 * t))).
        nra.
      - rewrite Rabs_R0; lra. }
    unfold JS.truthy; destruct (Req_dec_T n 0); subst; lra.
  - rewrite Rabs_R0; lra.
Qed.

(** X3. For parameters in range the waveform never leaves the band
    [amplitude + sum of amplitude * amplitudeRatio + 1.5 * noise]: the
    peak of the orbit plot plus half the noise. *)
Theorem waveform_within_peak_band
    (comp : VibrationComponent) (omega t : R) :
  Spec.nonNegative comp ->
  Rabs (componentVal comp omega t)
  <= OrbitWindow.getPeakAmp comp
     + 0.5 * match noise comp with Some n => n | None => 0 end.
Proof. apply componentVal_band. Qed.

Lemma waveform_within_peak_band_witness :
  let c := mkComponent 1.0 0 None (Some 5.0) in
  Rabs (componentVal c 7 3) <= OrbitWindow.getPeakAmp c + 0.5 * 5.0.
Proof.
  intro c.
  apply (waveform_within_peak_band c 7 3).
  unfold Spec.nonNegative, c, Spec.harmonicList; simpl.
  repeat split; [lra | constructor | lra].
Defined.

End ComponentMore.

(** ** More on the interpolation kernel *)

Section KernelMore.
Import OdsMath.

Variables (x y z t animationRpm globalGain : R).

Let omega := animationRpm * 2 * PI / 60.
Let mag (c : VibrationComponent) :=
  calculateComponentDisplacement c omega t globalGain SCALAR.

(** While the loop runs, each accumulated coordinate stays between the
    lower and the upper bound of the sensors' values, each taken with the
    accumulated weight. *)
Lemma loop_between (sel : MeasurementPoint -> VibrationComponent)
    (proj : Vector3 -> R) lo hi ps :
  (forall acc p,
     proj (displacement (sensorStep power x y z t omega globalGain acc p))
     = proj (displacement acc) + mag (sel p) * weightOf power (dist x y z p)) ->
  (forall q, In q ps -> lo <= mag (sel q) <= hi) ->
  forall acc,
    lo * totalWeight acc <= proj (displacement acc) <= hi * totalWeight acc ->
    let r := fold_left (sensorStep power x y z t omega globalGain) ps acc in
    lo * totalWeight r <= proj (displacement r) <= hi * totalWeight r.
Proof.
  intros Hstep.
  induction ps as [| p ps IH]; intros Hq acc Hacc; simpl; [exact Hacc |].
  apply IH; [intros q Hin; apply Hq; now right |].
  rewrite Hstep; simpl.
  pose proof (weightOf_pos power (dist x y z p)) as W.
  destruct (Hq p (or_introl eq_refl)) as [L U].
  generalize dependent (weightOf power (dist x y z p)); intros w W.
  generalize dependent (mag (sel p)); intros m L U.
  destruct Hacc; split; nra.
Qed.

Lemma kernel_coordinate_between (sel : MeasurementPoint -> VibrationComponent)
    (proj : Vector3 -> R) lo hi p ps :
  (forall acc q,
     proj (displacement (sensorStep power x y z t omega globalGain acc q))
     = proj (displacement acc) + mag (sel q) * weightOf power (dist x y z q)) ->
  proj (mkVector3 0 0 0) = 0 ->
  (forall v s, proj (divideScalar v s) = proj v * (1 / s)) ->
  (forall q, In q (p :: ps) -> lo <= mag (sel q) <= hi) ->
  lo <= proj (calculateVertexDisplacement x y z t animationRpm (p :: ps) globalGain) <= hi.
Proof.
  intros Hstep Hzero Hdiv Hq.
  unfold calculateVertexDisplacement, calculateVertexDisplacementWith.
  fold omega.
  pose proof (loop_totalWeight_pos power x y z t omega globalGain p ps) as Hpos.
  rewrite JSFacts.gt_true by exact Hpos.
  rewrite Hdiv.
  pose proof (loop_between sel proj lo hi (p :: ps) Hstep Hq
                (mkAccum (mkVector3 0 0 0) 0)) as B.
  simpl in B; rewrite Hzero in B.
  assert (B0 : lo * 0 <= 0 <= hi * 0) by lra.
  specialize (B B0).
  unfold sensorLoop; simpl.
  set (r := fold_left (sensorStep power x y z t omega globalGain) ps
              (sensorStep power x y z t omega globalGain (mkAccum (mkVector3 0 0 0) 0) p)) in *.
  set (tw := totalWeight r) in *.
  assert (T : 0 < tw) by exact Hpos.
  assert (I : 0 < 1 / tw) by (apply Rdiv_lt_0_compat; lra).
  assert (E : tw * (1 / tw) = 1) by (field; lra).
  clearbody tw; generalize dependent (proj (displacement r)); intros v B.
  generalize dependent (1 / tw); intros i I E.
  destruct B as [B1 B2]; split.
  - assert (M : lo * tw * i <= v * i) by (apply Rmult_le_compat_r; lra).
    replace (lo * tw * i) with (lo * (tw * i)) in M by ring.
    rewrite E in M; lra.
  - assert (M : v * i <= hi * tw * i) by (apply Rmult_le_compat_r; lra).
    replace (hi * tw * i) with (hi * (tw * i)) in M by ring.
    rewrite E in M; lra.
Qed.

(** X4. The kernel's output is a weighted average: on each axis it lies
    between the smallest and the largest of the sensors' values on that
    axis. *)
Theorem kernel_output_between_sensor_values
    (p : MeasurementPoint) (ps : list MeasurementPoint)
    (loH hiH loV hiV loA hiA : R) :
  (forall q, In q (p :: ps) ->
     loH <= calculateComponentDisplacement (horizontal q)
              (animationRpm * 2 * PI / 60) t globalGain SCALAR <= hiH /\
     loV <= calculateComponentDisplacement (vertical q)
              (animationRpm * 2 * PI / 60) t globalGain SCALAR <= hiV /\
     loA <= calculateComponentDisplacement (axial q)
              (animationRpm * 2 * PI / 60) t globalGain SCALAR <= hiA) ->
  let d := calculateVertexDisplacement x y z t animationRpm (p :: ps) globalGain in
  loH <= vx d <= hiH /\ loV <= vy d <= hiV /\ loA <= vz d <= hiA.
Proof.
  intros H d; subst d.
  split; [| split].
  - apply (kernel_coordinate_between horizontal vx); try reflexivity.
    intros q Hq; apply (H q Hq).
  - apply (kernel_coordinate_between vertical vy); try reflexivity.
    intros q Hq; apply (H q Hq).
  - apply (kernel_coordinate_between axial vz); try reflexivity.
    intros q Hq; apply (H q Hq).
Qed.

(** Two passes of the loop body commute. *)
Lemma sensorStep_comm acc p q :
  sensorStep power x y z t omega globalGain (sensorStep power x y z t omega globalGain acc p) q
  = sensorStep power x y z t omega globalGain (sensorStep power x y z t omega globalGain acc q) p.
Proof. unfold sensorStep; simpl; f_equal; [f_equal |]; ring. Qed.

Lemma sensorLoop_perm ps ps' :
  Permutation ps ps' ->
  forall acc, fold_left (sensorStep power x y z t omega globalGain) ps acc
              = fold_left (sensorStep power x y z t omega globalGain) ps' acc.
Proof.
  induction 1 as [| p l l' _ IH | p q l | l l' l'' _ IH1 _ IH2]; intro acc; simpl.
  - reflexivity.
  - apply IH.
  - now rewrite sensorStep_comm.
  - now rewrite IH1.
Qed.

(** X5. The order of the sensors in the roster does not matter. *)
Theorem kernel_roster_order_irrelevant (ps ps' : list MeasurementPoint) :
  Permutation ps ps' ->
  calculateVertexDisplacement x y z t animationRpm ps globalGain
  = calculateVertexDisplacement x y z t animationRpm ps' globalGain.
Proof.
  intro P.
  unfold calculateVertexDisplacement, calculateVertexDisplacementWith, sensorLoop.
  now rewrite (sensorLoop_perm ps ps' P).
Qed.

(** X6. With one sensor in the roster the displacement field is uniform: every
    query point moves as the sensor does. *)
Theorem single_sensor_field_uniform (p : MeasurementPoint) :
  calculateVertexDisplacement x y z t animationRpm [p] globalGain
  = mkVector3
      (calculateComponentDisplacement (horizontal p) (animationRpm * 2 * PI / 60) t globalGain SCALAR)
      (calculateComponentDisplacement (vertical p) (animationRpm * 2 * PI / 60) t globalGain SCALAR)
      (calculateComponentDisplacement (axial p) (animationRpm * 2 * PI / 60) t globalGain SCALAR).
Proof.
  unfold calculateVertexDisplacement, calculateVertexDisplacementWith, sensorLoop; simpl.
  pose proof (weightOf_pos power (dist x y z p)) as W.
  rewrite JSFacts.gt_true by lra.
  unfold divideScalar; simpl; f_equal; field; lra.
Qed.

End KernelMore.

Lemma kernel_output_between_sensor_values_witness :
  let c := mkComponent 0 0 None None in
  let p := mkPoint "a" "A" (0, 0, 0) c c c None in
  let q := mkPoint "b" "B" (1, 0, 0) c c c None in
  0 <= OdsMath.vx (OdsMath.calculateVertexDisplacement 0.5 0 0 1 60 [p; q] 10) <= 0.
Proof.
  intros c p q.
  apply (kernel_output_between_sensor_values 0.5 0 0 1 60 10 p [q] 0 0 0 0 0 0).
  intros r Hin.
  assert (Z : forall w, OdsMath.calculateComponentDisplacement c w 1 10 OdsMath.SCALAR = 0).
  { intro w; unfold OdsMath.calculateComponentDisplacement, OdsMath.componentVal, c; simpl; ring. }
  assert (Hr : r = p \/ r = q) by (destruct Hin as [<- | [<- | []]]; auto).
  destruct Hr; subst r; simpl; rewrite Z; lra.
Defined.

Lemma kernel_roster_order_irrelevant_witness :
  let c := mkComponent 1 0 None None in
  let p := mkPoint "a" "A" (0, 0, 0) c c c None in
  let q := mkPoint "b" "B" (1, 0, 0) c c c None in
  OdsMath.calculateVertexDisplacement 0.5 0 0 1 60 [p; q] 10
  = OdsMath.calculateVertexDisplacement 0.5 0 0 1 60 [q; p] 10.
Proof.
  intros c p q.
  apply (kernel_roster_order_irrelevant 0.5 0 0 1 60 10 [p; q] [q; p]).
  apply perm_swap.
Defined.

(** ** More on the orbit plot *)

Section OrbitMore.
Import OrbitWindow OrbitEffect.

Lemma sampleTime_degrees i : sampleTime i = INR i * PI / 180.
Proof. unfold sampleTime, duration, numCycles; rewrite INR_points; field. Qed.

Lemma nth_orbitPath width height probeX probeY i :
  (i <= points)%nat ->
  nth_error (orbitPath width height probeX probeY) i
  = Some (plot width height probeX probeY i).
Proof.
  intro H; unfold orbitPath.
  now rewrite nth_error_map, nth_loopIndices.
Qed.

Lemma cmdPoint_plot width height probeX probeY i :
  cmdPoint (plot width height probeX probeY i)
  = (width / 2 + calcVal probeX (sampleTime i) * scale width probeX probeY,
     height / 2 - calcVal probeY (sampleTime i) * scale width probeX probeY).
Proof. unfold plot, sample; destruct (i =? 0)%nat; reflexivity. Qed.

(** [calcVal] repeats after [2 * 2 PI] when every harmonic order is a
    multiple of one half. *)
Lemma calcVal_two_turns comp t :
  Forall (fun h => exists k : nat, 2 * order h = INR k) (Spec.harmonicList comp) ->
  calcVal comp (t + 2 * (2 * PI)) = calcVal comp t.
Proof.
  intro H; rewrite !calcVal_eq.
  replace (t + 2 * (2 * PI)) with (t + 2 * (2 * PI / 1)) by field.
  apply waveform_repeats_after_two_revolutions; [lra | exact H].
Qed.

(** X7. The plotted orbit closes on itself, its last vertex on its first, when
    every harmonic order of both probes is a multiple of one half. *)
Theorem orbit_closes_for_half_orders
    (width height : R) (probeX probeY : VibrationComponent) :
  Forall (fun h => exists k : nat, 2 * order h = INR k) (Spec.harmonicList probeX) ->
  Forall (fun h => exists k : nat, 2 * order h = INR k) (Spec.harmonicList probeY) ->
  nth_error (orbitSamples probeX probeY) points
  = nth_error (orbitSamples probeX probeY) 0 /\
  exists px py,
    nth_error (orbitPath width height probeX probeY) 0 = Some (MoveTo px py) /\
    nth_error (orbitPath width height probeX probeY) points = Some (LineTo px py).
Proof.
  intros HX HY.
  assert (S : sample probeX probeY points = sample probeX probeY 0).
  { unfold sample; rewrite sampleTime_last, sampleTime_first; unfold numCycles.
    replace (2 * (2 * PI)) with (0 + 2 * (2 * PI)) by ring.
    now rewrite !calcVal_two_turns. }
  split.
  - rewrite !nth_orbitSamples by (unfold points; lia); now rewrite S.
  - rewrite !nth_orbitPath by (unfold points; lia).
    unfold plot; rewrite S.
    destruct (sample probeX probeY 0) as [valX valY].
    change (points =? 0)%nat with false; change (0 =? 0)%nat with true.
    eexists; eexists; split; reflexivity.
Qed.

Lemma orbit_closes_for_half_orders_witness :
  let c := mkComponent 30 0
             (Some [mkHarmonic 0.5 0.3 0; mkHarmonic 2.0 0.3 180; mkHarmonic 3.0 0.2 0])
             (Some 10) in
  nth_error (orbitSamples c c) points = nth_error (orbitSamples c c) 0.
Proof.
  intro c.
  assert (H : Forall (fun h => exists k : nat, 2 * order h = INR k) (Spec.harmonicList c)).
  { unfold c, Spec.harmonicList; simpl; repeat constructor.
    - exists 1%nat; simpl; lra.
    - exists 4%nat; simpl; lra.
    - exists 6%nat; simpl; lra. }
  apply (orbit_closes_for_half_orders 400 400 c c H H).
Defined.

(** [x || 0] is [x]. *)
Lemma or_else_zero v : JS.or_else v 0 = v.
Proof. unfold JS.or_else, JS.truthy; destruct (Req_dec_T v 0); congruence. Qed.

(** X8. The keyphasor dot sits on the trajectory: with the keyphasor phase at
    minus [i] degrees, [i] from [0] to [720], it is the [i]-th vertex of the
    plotted path; without a keyphasor point, or with phase [0], it is the
    path's first vertex. *)
Theorem keyphasor_dot_on_vertex
    (width height : R) (probeX probeY : VibrationComponent)
    (k : MeasurementPoint) (i : nat) :
  (i <= points)%nat ->
  phase (horizontal k) = - INR i ->
  keyphasorDot width height probeX probeY (Some k)
  = cmdPoint (plot width height probeX probeY i) /\
  nth_error (orbitPath width height probeX probeY) i
  = Some (plot width height probeX probeY i) /\
  keyphasorDot width height probeX probeY None
  = cmdPoint (plot width height probeX probeY 0).
Proof.
  intros Hi Hph.
  assert (T : kpTime (Some k) = sampleTime i).
  { unfold kpTime, kpRad, kpPhaseShift.
    rewrite or_else_zero, Hph, sampleTime_degrees; field. }
  assert (T0 : kpTime None = sampleTime 0).
  { unfold kpTime, kpRad, kpPhaseShift; rewrite sampleTime_first; field. }
  split; [| split].
  - rewrite cmdPoint_plot; unfold keyphasorDot; now rewrite T.
  - now apply nth_orbitPath.
  - rewrite cmdPoint_plot; unfold keyphasorDot; now rewrite T0.
Qed.

Lemma keyphasor_dot_on_vertex_witness :
  let c := mkComponent 40 0 (Some []) (Some 0) in
  let k := mkPoint "keyphasor" "Keyphasor" (0, 1.5, -0.5)
             (mkComponent 0.2 (-90) (Some []) (Some 0)) c c (Some true) in
  keyphasorDot 400 400 c c (Some k) = cmdPoint (plot 400 400 c c 90).
Proof.
  intros c k.
  assert (Hi : (90 <= points)%nat) by (unfold points; lia).
  assert (Hph : phase (horizontal k) = - INR 90).
  { rewrite INR_IZR_INZ; change (Z.of_nat 90) with 90%Z; unfold k; simpl; lra. }
  apply (keyphasor_dot_on_vertex 400 400 c c k 90 Hi Hph).
Defined.

(** X9. For probes with parameters in range the keyphasor dot lies strictly
    inside the canvas, whatever the keyphasor phase. *)
Theorem keyphasor_dot_within_canvas
    (probeX probeY : VibrationComponent) (k : option MeasurementPoint) :
  Spec.nonNegative probeX -> Spec.nonNegative probeY ->
  let d := keyphasorDot canvasWidth canvasHeight probeX probeY k in
  0 < fst d < canvasWidth /\ 0 < snd d < canvasHeight.
Proof.
  intros HX HY d; subst d.
  assert (W : 0 < canvasWidth) by (unfold canvasWidth; lra).
  destruct (plotted_within canvasWidth probeX probeY (kpTime k) W HX HY) as [BX BY].
  assert (BX' : Rabs (calcVal probeX (kpTime k) * scale canvasWidth probeX probeY)
                < canvasWidth / 2) by (unfold canvasWidth in *; lra).
  assert (BY' : Rabs (calcVal probeY (kpTime k) * scale canvasWidth probeX probeY)
                < canvasHeight / 2) by (unfold canvasWidth, canvasHeight in *; lra).
  apply Rabs_def2 in BX', BY'.
  unfold keyphasorDot, canvasWidth, canvasHeight in *; simpl; lra.
Qed.

Lemma keyphasor_dot_within_canvas_witness :
  let c := mkComponent 40 0 (Some []) (Some 0) in
  0 < fst (keyphasorDot canvasWidth canvasHeight c c None) < canvasWidth.
Proof.
  intro c.
  assert (H : Spec.nonNegative c).
  { unfold Spec.nonNegative, c; simpl; repeat split; [lra | constructor | lra]. }
  apply (keyphasor_dot_within_canvas c c None H H).
Defined.

End OrbitMore.

(** ** The store: fault presets *)

Section StorePresets.
Import Store.

Lemma ODSMode_of_value m : ODSMode_of (ODSMode_value m) = Some m.
Proof. destruct m; reflexivity. Qed.

Lemma OrbitFault_of_value f : OrbitFault_of (OrbitFault_value f) = Some f.
Proof. destruct f; reflexivity. Qed.

Lemma ods_value_not_orbit m :
  existsb (String.eqb (ODSMode_value m)) OrbitFault_values = false.
Proof. destruct m; reflexivity. Qed.

Lemma orbit_value_is_orbit f :
  existsb (String.eqb (OrbitFault_value f)) OrbitFault_values = true.
Proof. destruct f; reflexivity. Qed.

Lemma probeFn_identity pid amp ph hs nz p :
  identityOf (probeFn pid amp ph hs nz p) = identityOf p.
Proof. unfold probeFn; destruct (id p =? pid)%string; reflexivity. Qed.

Lemma odsCase_identity m p : identityOf (odsCase m p) = identityOf p.
Proof.
  destruct (position p) as [[p0 p1] p2] eqn:E.
  destruct m; unfold odsCase, identityOf; simpl; rewrite ?E;
    repeat match goal with
           | |- context [if ?b then _ else _] => destruct b
           end; simpl; rewrite ?E; reflexivity.
Qed.

Lemma odsBaseline_identity p : identityOf (odsBaseline p) = identityOf p.
Proof. reflexivity. Qed.

Lemma orbitBaseline_identity p : identityOf (orbitBaseline p) = identityOf p.
Proof. unfold orbitBaseline; destruct (id p =? "keyphasor")%string; reflexivity. Qed.

Lemma softFoot_identity pts rpm lf :
  map identityOf (updateSoftFootPoints pts rpm lf) = map identityOf pts.
Proof.
  unfold updateSoftFootPoints; rewrite map_map; apply map_ext.
  intro p; destruct (id p =? "m-foot-de-r")%string; reflexivity.
Qed.

Lemma map_identity_fn (f : MeasurementPoint -> MeasurementPoint) pts :
  (forall p, identityOf (f p) = identityOf p) ->
  map identityOf (map f pts) = map identityOf pts.
Proof. intro H; rewrite map_map; apply map_ext; exact H. Qed.

Lemma orbitPreset_identity mode pts :
  map identityOf (orbitPreset mode pts) = map identityOf pts.
Proof.
  unfold orbitPreset, updateProbe.
  destruct (OrbitFault_of mode) as [[] |]; trivial;
    rewrite !map_identity_fn; trivial;
    intro p; match goal with |- context [if ?b then _ else _] => destruct b end;
    reflexivity.
Qed.

Lemma odsPreset_identity s mode pts :
  map identityOf (odsPreset s mode pts) = map identityOf pts.
Proof.
  unfold odsPreset.
  destruct (ODSMode_of mode) as [m |]; trivial.
  destruct m; try apply softFoot_identity;
    apply map_identity_fn; intro p; apply odsCase_identity.
Qed.

(** X11. No name of an ODS mode is the name of an orbit fault, so an ODS preset
    rewrites the ODS roster and [currentMode] and nothing else in the
    state, and an orbit preset the orbit roster and [currentOrbitFault]
    and nothing else; either way every point keeps its id, label,
    position and reference flag, in the same order. *)
Theorem presets_keep_rosters_apart (s : SimulationState) (m : ODSMode) (f : OrbitFault) :
  let so := resetToMode s (ODSMode_value m) in
  let sf := resetToMode s (OrbitFault_value f) in
  let settings st :=
    (appMode st, animationRpm st, machineRpm st, globalGain st, lineFreq st,
     isPlaying st, wireframe st, isAnalysisMode st, isSettingsOpen st,
     isUploadModalOpen st, isOrbitPlotOpen st, isOrbitSimulationVisible st,
     simulationTime st, shaftAngle st, selectedPointId st) in
  (settings so = settings s /\
   orbitPoints so = orbitPoints s /\
   currentOrbitFault so = currentOrbitFault s /\
   currentMode so = ODSMode_value m /\
   map identityOf (points so) = map identityOf (points s)) /\
  (settings sf = settings s /\
   points sf = points s /\
   currentMode sf = currentMode s /\
   currentOrbitFault sf = OrbitFault_value f /\
   map identityOf (orbitPoints sf) = map identityOf (orbitPoints s)).
Proof.
  intros so sf settings; subst so sf settings; unfold resetToMode.
  rewrite ods_value_not_orbit, orbit_value_is_orbit; simpl.
  repeat split.
  - now rewrite odsPreset_identity, map_identity_fn.
  - rewrite orbitPreset_identity, map_identity_fn; trivial.
    apply orbitBaseline_identity.
Qed.

End StorePresets.

Section PresetRanges.
Import Store.

Lemma nonNegative_intro a ph hs n :
  0 <= a ->
  Forall (fun h => 0 <= amplitudeRatio h) (match hs with Some l => l | None => [] end) ->
  match n with Some v => 0 <= v | None => True end ->
  Spec.nonNegative (mkComponent a ph hs n).
Proof. intros; unfold Spec.nonNegative, Spec.harmonicList; simpl; auto. Qed.

Ltac in_range :=
  apply nonNegative_intro; simpl;
  [ try lra
  | repeat constructor; simpl; lra
  | try exact I; try lra ].

Lemma updateProbe_map pts pid amp ph hs nz :
  updateProbe pts pid amp ph hs nz = map (probeFn pid amp ph hs nz) pts.
Proof. reflexivity. Qed.

Lemma orbitBaseline_inRange pts : probesInRange (map orbitBaseline pts).
Proof.
  intros p Hin Hid; apply in_map_iff in Hin as (q & <- & _).
  unfold orbitBaseline in *.
  destruct (String.eqb_spec (id q) "keyphasor"); [contradiction |].
  unfold baseAmp; in_range.
Qed.

Lemma updateProbe_inRange pts pid amp ph hs nz :
  0 <= amp -> Forall (fun h => 0 <= amplitudeRatio h) hs -> 0 <= nz ->
  probesInRange pts -> probesInRange (updateProbe pts pid amp ph hs nz).
Proof.
  intros Ha Hh Hn HP p Hin Hid.
  rewrite updateProbe_map in Hin; apply in_map_iff in Hin as (q & <- & Hq).
  unfold probeFn in *.
  destruct (id q =? pid)%string; simpl in *.
  - now apply nonNegative_intro.
  - now apply HP.
Qed.

Lemma orbitPreset_inRange mode pts :
  probesInRange pts -> probesInRange (orbitPreset mode pts).
Proof.
  intro HP; unfold orbitPreset.
  destruct (OrbitFault_of mode) as [[] |]; trivial;
    repeat (apply updateProbe_inRange; [lra | repeat constructor; simpl; lra | lra |]);
    exact HP.
Qed.

Lemma findById_some pid pts p :
  OrbitEffect.findById pid pts = Some p -> In p pts /\ id p = pid.
Proof.
  unfold OrbitEffect.findById; intro H; apply find_some in H as [Hin E].
  split; [exact Hin | now apply String.eqb_eq].
Qed.

(** Shared bounds: for probes in range, every point plotted at a time
    [t] lies strictly inside the canvas. *)
Lemma plotted_inside_canvas probeX probeY t :
  Spec.nonNegative probeX -> Spec.nonNegative probeY ->
  let s := OrbitWindow.scale OrbitWindow.canvasWidth probeX probeY in
  0 < OrbitWindow.canvasWidth / 2 + OrbitWindow.calcVal probeX t * s
    < OrbitWindow.canvasWidth /\
  0 < OrbitWindow.canvasHeight / 2 - OrbitWindow.calcVal probeY t * s
    < OrbitWindow.canvasHeight.
Proof.
  intros HX HY s; subst s.
  assert (W : 0 < OrbitWindow.canvasWidth) by (unfold OrbitWindow.canvasWidth; lra).
  destruct (plotted_within OrbitWindow.canvasWidth probeX probeY t W HX HY) as [BX BY].
  unfold OrbitWindow.canvasWidth, OrbitWindow.canvasHeight in *.
  assert (BX' : Rabs (OrbitWindow.calcVal probeX t * OrbitWindow.scale 400 probeX probeY)
                < 200) by lra.
  assert (BY' : Rabs (OrbitWindow.calcVal probeY t * OrbitWindow.scale 400 probeX probeY)
                < 200) by lra.
  apply Rabs_def2 in BX', BY'; lra.
Qed.

Lemma path_inside_canvas probeX probeY c :
  Spec.nonNegative probeX -> Spec.nonNegative probeY ->
  In c (OrbitWindow.orbitPath OrbitWindow.canvasWidth OrbitWindow.canvasHeight probeX probeY) ->
  0 < fst (OrbitWindow.cmdPoint c) < OrbitWindow.canvasWidth /\
  0 < snd (OrbitWindow.cmdPoint c) < OrbitWindow.canvasHeight.
Proof.
  intros HX HY Hin.
  unfold OrbitWindow.orbitPath in Hin; apply in_map_iff in Hin as (i & <- & _).
  rewrite cmdPoint_plot; simpl.
  apply (plotted_inside_canvas probeX probeY _ HX HY).
Qed.

(** X12. After any orbit fault preset, on any state, the orbit window never
    clips: whatever it draws, every vertex of the path and the keyphasor
    dot lie strictly inside the canvas. *)
Theorem orbit_presets_never_clip
    (s : SimulationState) (f : OrbitFault) (d : OrbitEffect.Drawing) :
  OrbitEffect.drawOrbit true true OrbitWindow.canvasWidth OrbitWindow.canvasHeight
    (orbitPoints (resetToMode s (OrbitFault_value f))) = Some d ->
  (forall c, In c (OrbitEffect.orbit d) ->
     0 < fst (OrbitWindow.cmdPoint c) < OrbitWindow.canvasWidth /\
     0 < snd (OrbitWindow.cmdPoint c) < OrbitWindow.canvasHeight) /\
  0 < fst (OrbitEffect.dot d) < OrbitWindow.canvasWidth /\
  0 < snd (OrbitEffect.dot d) < OrbitWindow.canvasHeight.
Proof.
  unfold resetToMode; rewrite orbit_value_is_orbit; simpl.
  set (pts := orbitPreset (OrbitFault_value f) (map orbitBaseline (orbitPoints s))).
  assert (HP : probesInRange pts)
    by (apply orbitPreset_inRange, orbitBaseline_inRange).
  unfold OrbitEffect.drawOrbit, OrbitEffect.probeX, OrbitEffect.probeY; simpl.
  destruct (OrbitEffect.findById "probe-x" pts) as [px |] eqn:EX; simpl; [| discriminate].
  destruct (OrbitEffect.findById "probe-y" pts) as [py |] eqn:EY; simpl; [| discriminate].
  intro H; injection H as <-; simpl.
  apply findById_some in EX as [InX IdX], EY as [InY IdY].
  assert (NX : Spec.nonNegative (horizontal px))
    by (apply HP; [exact InX | rewrite IdX; discriminate]).
  assert (NY : Spec.nonNegative (horizontal py))
    by (apply HP; [exact InY | rewrite IdY; discriminate]).
  split.
  - intros c Hc.
    now apply (path_inside_canvas (horizontal px) (horizontal py) c NX NY Hc).
  - unfold OrbitEffect.keyphasorDot; simpl.
    apply (plotted_inside_canvas (horizontal px) (horizontal py) _ NX NY).
Qed.

Lemma orbit_presets_never_clip_witness :
  exists d,
    OrbitEffect.drawOrbit true true OrbitWindow.canvasWidth OrbitWindow.canvasHeight
      (orbitPoints (resetToMode initialState (OrbitFault_value Rub))) = Some d /\
    0 < fst (OrbitEffect.dot d) < OrbitWindow.canvasWidth.
Proof.
  eexists; split; [reflexivity |].
  eapply (orbit_presets_never_clip initialState Rub); reflexivity.
Defined.

End PresetRanges.

Section PresetAlgebra.
Import Store.

Lemma with_amplitude_phase_inRange c a ph :
  0 <= a -> Spec.nonNegative c -> Spec.nonNegative (with_amplitude_phase c a ph).
Proof.
  intros Ha (_ & Hh & Hn); unfold with_amplitude_phase.
  apply nonNegative_intro; trivial.
Qed.

Lemma odsBaseline_allInRange p : allInRange (odsBaseline p).
Proof.
  unfold allInRange, odsBaseline; simpl.
  repeat split; simpl; try lra; constructor.
Qed.

Ltac range_step :=
  first
    [ assumption
    | apply with_amplitude_phase_inRange; [lra | assumption]
    | apply nonNegative_intro; simpl;
      [ first [lra | apply Rmult_le_pos; [apply Rabs_pos | lra]]
      | repeat constructor; simpl; lra
      | first [exact I | lra] ] ].

Lemma odsCase_allInRange m p : allInRange p -> allInRange (odsCase m p).
Proof.
  intros (Hh & Hv & Ha).
  destruct (position p) as [[p0 p1] p2] eqn:E.
  destruct m; unfold odsCase, allInRange; simpl; rewrite ?E;
    repeat match goal with
           | |- context [if ?b then _ else _] => destruct b
           end; simpl; rewrite ?E; simpl;
    (split; [| split]); range_step.
Qed.

Lemma softFoot_allInRange pts rpm lf :
  Forall allInRange pts -> Forall allInRange (updateSoftFootPoints pts rpm lf).
Proof.
  intro H; unfold updateSoftFootPoints; apply Forall_map.
  eapply Forall_impl; [| exact H].
  intros p (Hh & Hv & Ha).
  destruct (id p =? "m-foot-de-r")%string; [| exact (conj Hh (conj Hv Ha))].
  unfold allInRange; simpl.
  split; [exact Hh | split; [| exact Ha]].
  apply nonNegative_intro; simpl.
  - lra.
  - repeat constructor; simpl; lra.
  - destruct Hv as (_ & _ & Hn); exact Hn.
Qed.

(** X13. After any ODS preset, on any state, every component of every sensor
    has non-negative amplitude, amplitude ratios and noise. *)
Theorem ods_presets_in_range (s : SimulationState) (m : ODSMode) :
  Forall (fun p =>
            Spec.nonNegative (horizontal p) /\
            Spec.nonNegative (vertical p) /\
            Spec.nonNegative (axial p))
         (points (resetToMode s (ODSMode_value m))).
Proof.
  unfold resetToMode; rewrite ods_value_not_orbit; simpl.
  assert (B : Forall allInRange (map odsBaseline (points s))).
  { apply Forall_map, Forall_forall; intros p _; apply odsBaseline_allInRange. }
  unfold odsPreset; rewrite ODSMode_of_value.
  destruct m; try (apply softFoot_allInRange; exact B);
    apply Forall_map; (eapply Forall_impl; [| exact B]);
    intros p Hp; now apply odsCase_allInRange.
Qed.

(** An orbit preset acts point by point. *)
Lemma orbitPreset_map mode pts :
  orbitPreset mode pts = map (orbitFn mode) pts.
Proof.
  unfold orbitFn, orbitPreset.
  destruct (OrbitFault_of mode) as [[] |];
    rewrite ?updateProbe_map, ?map_map;
    try (apply map_ext; intro p; reflexivity);
    symmetry; apply map_id.
Qed.

Lemma orbitFn_identity mode p : identityOf (orbitFn mode p) = identityOf p.
Proof.
  pose proof (orbitPreset_identity mode [p]) as H.
  rewrite orbitPreset_map in H; simpl in H.
  exact (f_equal (hd (identityOf p)) H).
Qed.

Lemma probeFn_keeps_keyphasor pid amp ph hs nz p :
  id p = "keyphasor"%string -> pid <> "keyphasor"%string ->
  probeFn pid amp ph hs nz p = p.
Proof.
  intros E N; unfold probeFn.
  destruct (String.eqb_spec (id p) pid); [congruence | reflexivity].
Qed.

Lemma orbitFn_keeps_keyphasor mode p :
  id p = "keyphasor"%string -> orbitFn mode p = p.
Proof.
  intro E; unfold orbitFn, orbitPreset.
  destruct (OrbitFault_of mode) as [[] |]; trivial;
    rewrite !updateProbe_map; simpl;
    rewrite (probeFn_keeps_keyphasor "probe-x") by (trivial; discriminate);
    rewrite (probeFn_keeps_keyphasor "probe-y") by (trivial; discriminate);
    reflexivity.
Qed.

(** The orbit baseline depends on a point's identity alone, the keyphasor
    apart, which it returns as it is. *)
Lemma orbitBaseline_after mode p :
  orbitBaseline (orbitFn mode (orbitBaseline p)) = orbitBaseline p.
Proof.
  destruct (String.eqb_spec (id p) "keyphasor") as [E | N].
  - assert (B : orbitBaseline p = p)
      by (unfold orbitBaseline; now rewrite E).
    rewrite B, orbitFn_keeps_keyphasor; trivial.
  - set (q := orbitBaseline p).
    pose proof (orbitFn_identity mode q) as I1.
    pose proof (orbitBaseline_identity p) as I2; fold q in I2.
    unfold identityOf in *.
    injection I1 as A1 A2 A3 A4; injection I2 as B1 B2 B3 B4.
    assert (Q : q = mkPoint (id p) (label p) (position p)
                      (mkComponent baseAmp 0 (Some []) (Some 0))
                      (mkComponent 0 0 (Some []) (Some 0))
                      (mkComponent 0 0 (Some []) (Some 0)) (isReference p)).
    { unfold q, orbitBaseline.
      destruct (String.eqb_spec (id p) "keyphasor"); [contradiction | reflexivity]. }
    rewrite Q at 2.
    unfold orbitBaseline at 1.
    rewrite A1, A2, A3, A4, B1, B2, B3, B4.
    destruct (String.eqb_spec (id p) "keyphasor"); [contradiction | reflexivity].
Qed.

Lemma odsBaseline_by_identity l1 l2 :
  map identityOf l1 = map identityOf l2 -> map odsBaseline l1 = map odsBaseline l2.
Proof.
  revert l2; induction l1 as [| p l1 IH]; intros [| q l2] H; simpl in *;
    try discriminate; trivial.
  injection H as A1 A2 A3 A4 Hrest.
  unfold odsBaseline; rewrite A1, A2, A3, A4; f_equal; now apply IH.
Qed.

(** X14. Presets do not pile up: within the ODS modes, and within the orbit
    faults, choosing a preset after another one leaves the state that
    choosing it alone leaves. *)
Theorem presets_do_not_accumulate
    (s : SimulationState) (m1 m2 : ODSMode) (f1 f2 : OrbitFault) :
  resetToMode (resetToMode s (ODSMode_value m1)) (ODSMode_value m2)
  = resetToMode s (ODSMode_value m2) /\
  resetToMode (resetToMode s (OrbitFault_value f1)) (OrbitFault_value f2)
  = resetToMode s (OrbitFault_value f2).
Proof.
  split; unfold resetToMode.
  - rewrite !ods_value_not_orbit; simpl.
    rewrite (odsBaseline_by_identity
               (odsPreset s (ODSMode_value m1) (map odsBaseline (points s))) (points s))
      by (now rewrite odsPreset_identity, map_identity_fn).
    unfold odsPreset; rewrite !ODSMode_of_value.
    destruct s; destruct m2; reflexivity.
  - rewrite !orbit_value_is_orbit; simpl.
    assert (M : map orbitBaseline
                  (orbitPreset (OrbitFault_value f1) (map orbitBaseline (orbitPoints s)))
                = map orbitBaseline (orbitPoints s)).
    { rewrite orbitPreset_map, !map_map.
      apply map_ext; intro p; apply orbitBaseline_after. }
    rewrite M; destruct s; reflexivity.
Qed.

Lemma find_map_fixed (g : MeasurementPoint -> MeasurementPoint) pid pts :
  (forall p, id (g p) = id p) ->
  (forall p, id p = pid -> g p = p) ->
  find (fun p => (id p =? pid)%string) (map g pts)
  = find (fun p => (id p =? pid)%string) pts.
Proof.
  intros Hid Hfix; induction pts as [| p pts IH]; simpl; [reflexivity |].
  rewrite Hid.
  destruct (String.eqb_spec (id p) pid) as [E | N]; [now rewrite Hfix | exact IH].
Qed.

(** X15. An orbit preset leaves the keyphasor point exactly as it was, so the
    reference phase of the keyphasor dot survives every preset. *)
Theorem orbit_presets_keep_keyphasor (s : SimulationState) (f : OrbitFault) :
  let s' := resetToMode s (OrbitFault_value f) in
  OrbitEffect.kp (orbitPoints s') = OrbitEffect.kp (orbitPoints s) /\
  OrbitEffect.kpTime (OrbitEffect.kp (orbitPoints s'))
  = OrbitEffect.kpTime (OrbitEffect.kp (orbitPoints s)).
Proof.
  intro s'; subst s'.
  assert (K : OrbitEffect.kp (orbitPoints (resetToMode s (OrbitFault_value f)))
              = OrbitEffect.kp (orbitPoints s)).
  { unfold resetToMode; rewrite orbit_value_is_orbit; simpl.
    unfold OrbitEffect.kp, OrbitEffect.findById.
    rewrite orbitPreset_map, map_map.
    apply find_map_fixed.
    - intro p.
      pose proof (orbitFn_identity (OrbitFault_value f) (orbitBaseline p)) as I1.
      pose proof (orbitBaseline_identity p) as I2.
      unfold identityOf in *; congruence.
    - intros p E.
      assert (B : orbitBaseline p = p) by (unfold orbitBaseline; now rewrite E).
      rewrite B; now apply orbitFn_keeps_keyphasor. }
  split; [exact K | now rewrite K].
Qed.

End PresetAlgebra.

(** ** The store: soft foot, reference point, point updates *)

Section StoreActions.
Import Store.

(** X16. The soft-foot harmonic sits at twice the line frequency: its order
    times the machine speed is [2 * lineFreq * 60] cycles per minute, and
    with a machine speed of [0] the division is by [1] instead. *)
Theorem soft_foot_harmonic_at_twice_line_frequency
    (pts : list MeasurementPoint) (rpm lf : R) (p : MeasurementPoint) :
  In p (updateSoftFootPoints pts rpm lf) ->
  id p = "m-foot-de-r"%string ->
  exists h,
    harmonics (vertical p) = Some [h] /\
    amplitude (vertical p) = 6 /\
    amplitudeRatio h = 1.2 /\ phaseShift h = 180 /\
    (rpm <> 0 -> order h * rpm = 2 * lf * 60) /\
    (rpm = 0 -> order h = 2 * lf * 60).
Proof.
  intros Hin Hid.
  unfold updateSoftFootPoints in Hin; apply in_map_iff in Hin as (q & <- & _).
  destruct (String.eqb_spec (id q) "m-foot-de-r") as [E | N]; [| contradiction].
  eexists; simpl; repeat split; try reflexivity; try lra.
  - intro H; cbn [order]; unfold JS.or_else; rewrite JSFacts.truthy_true by exact H.
    field; exact H.
  - intros ->; cbn [order]; unfold JS.or_else; rewrite JSFacts.truthy_zero; field.
Qed.

Lemma soft_foot_harmonic_at_twice_line_frequency_witness :
  exists h,
    harmonics (vertical (with_vertical (createPoint "m-foot-de-r" "Motor Foot DE-R" (-0.6) 0.2 0.8 false)
                           (mkComponent 6.0 0 (Some [mkHarmonic (2 * 50 * 60 / JS.or_else 1480 1) 1.2 180]) (Some 0))))
    = Some [h] /\ order h * 1480 = 2 * 50 * 60.
Proof.
  destruct (soft_foot_harmonic_at_twice_line_frequency
              INITIAL_ODS_POINTS 1480 50
              (with_vertical (createPoint "m-foot-de-r" "Motor Foot DE-R" (-0.6) 0.2 0.8 false)
                 (mkComponent 6.0 0
                    (Some [mkHarmonic (2 * 50 * 60 / JS.or_else 1480 1) 1.2 180]) (Some 0))))
    as (h & H1 & _ & _ & _ & H5 & _).
  - simpl; right; left; reflexivity.
  - reflexivity.
  - exists h; split; [exact H1 | apply H5; lra].
Defined.

(** Applying the soft-foot update over an earlier one gives what applying
    it alone gives. *)
Lemma softFoot_overwrites pts r1 l1 r2 l2 :
  updateSoftFootPoints (updateSoftFootPoints pts r1 l1) r2 l2
  = updateSoftFootPoints pts r2 l2.
Proof.
  unfold updateSoftFootPoints; rewrite map_map; apply map_ext; intro p.
  destruct (String.eqb_spec (id p) "m-foot-de-r") as [E | N]; simpl.
  - rewrite E; reflexivity.
  - destruct (String.eqb_spec (id p) "m-foot-de-r"); [contradiction | reflexivity].
Qed.

(** X17. The soft-foot update touches one thing only: the vertical amplitude
    and harmonics of the points named [m-foot-de-r]; running it again with
    the same speeds changes nothing more. *)
Theorem soft_foot_touches_one_foot
    (pts : list MeasurementPoint) (rpm lf : R) (i : nat) (p : MeasurementPoint) :
  nth_error pts i = Some p ->
  (exists p',
     nth_error (updateSoftFootPoints pts rpm lf) i = Some p' /\
     identityOf p' = identityOf p /\
     horizontal p' = horizontal p /\ axial p' = axial p /\
     phase (vertical p') = phase (vertical p) /\
     noise (vertical p') = noise (vertical p) /\
     (id p <> "m-foot-de-r"%string -> p' = p)) /\
  updateSoftFootPoints (updateSoftFootPoints pts rpm lf) rpm lf
  = updateSoftFootPoints pts rpm lf.
Proof.
  intro H; split; [| apply softFoot_overwrites].
  unfold updateSoftFootPoints; rewrite nth_error_map, H; simpl.
  eexists; split; [reflexivity |].
  destruct (String.eqb_spec (id p) "m-foot-de-r") as [E | N]; simpl;
    repeat split; trivial; intro; contradiction.
Qed.

Lemma soft_foot_touches_one_foot_witness :
  updateSoftFootPoints (updateSoftFootPoints INITIAL_ODS_POINTS 1480 50) 1480 50
  = updateSoftFootPoints INITIAL_ODS_POINTS 1480 50.
Proof.
  apply (soft_foot_touches_one_foot INITIAL_ODS_POINTS 1480 50 0
           (createPoint "m-foot-de-l" "Motor Foot DE-L" 0.6 0.2 0.8 false)).
  reflexivity.
Defined.



(** X19. After [setReferencePoint], in both rosters a point is the reference
    exactly when its id is the chosen one, and nothing else about any
    point has changed; a roster that does not hold the id ends without a
    reference. *)
Theorem reference_point_is_the_chosen_one (s : SimulationState) (pid : string) :
  let s' := setReferencePoint s pid in
  (forall p, In p (points s') \/ In p (orbitPoints s') ->
     isReference p = Some (id p =? pid)%string) /\
  map (fun p => (id p, label p, position p, horizontal p, vertical p, axial p)) (points s')
  = map (fun p => (id p, label p, position p, horizontal p, vertical p, axial p)) (points s) /\
  map (fun p => (id p, label p, position p, horizontal p, vertical p, axial p)) (orbitPoints s')
  = map (fun p => (id p, label p, position p, horizontal p, vertical p, axial p)) (orbitPoints s) /\
  (~ In pid (map id (orbitPoints s)) ->
   Forall (fun p => isReference p = Some false) (orbitPoints s')) /\
  (~ In pid (map id (points s)) ->
   Forall (fun p => isReference p = Some false) (points s')).
Proof.
  intro s'; subst s'; unfold setReferencePoint; simpl.
  assert (F : forall l,
            ~ In pid (map id l) ->
            Forall (fun p => isReference p = Some false)
                   (map (fun p => with_isReference p (id p =? pid)%string) l)).
  { intros l N; apply Forall_map, Forall_forall; intros p Hp; simpl.
    destruct (String.eqb_spec (id p) pid) as [E | _]; [| reflexivity].
    exfalso; apply N; rewrite <- E; now apply in_map. }
  repeat split.
  - intros p [H | H]; apply in_map_iff in H as (q & <- & _); reflexivity.
  - rewrite map_map; apply map_ext; reflexivity.
  - rewrite map_map; apply map_ext; reflexivity.
  - apply F.
  - apply F.
Qed.

End StoreActions.

Section PointUpdates.
Import Store.

Lemma existsb_id pid pts :
  existsb (fun p => (id p =? pid)%string) pts = true <-> In pid (map id pts).
Proof.
  rewrite existsb_exists, in_map_iff; split.
  - intros (p & Hin & E); apply String.eqb_eq in E; now exists p.
  - intros (p & E & Hin); exists p; split; [exact Hin | now apply String.eqb_eq].
Qed.

Lemma updateIn_absent pid u pts :
  ~ In pid (map id pts) -> updateIn pid u pts = pts.
Proof.
  intro N; unfold updateIn.
  rewrite <- (map_id pts) at 2; apply map_ext_in; intros p Hp.
  destruct (String.eqb_spec (id p) pid) as [E | _]; [| reflexivity].
  exfalso; apply N; rewrite <- E; now apply in_map.
Qed.

Lemma updateIn_other pid u pts i p :
  nth_error pts i = Some p -> id p <> pid ->
  nth_error (updateIn pid u pts) i = Some p.
Proof.
  intros H N; unfold updateIn; rewrite nth_error_map, H; simpl.
  destruct (String.eqb_spec (id p) pid); [contradiction | reflexivity].
Qed.

(** X20. [updatePoint] rewrites one roster only, the orbit roster whenever it
    holds the id; in the roster it rewrites, points with another id stay
    where and as they are; and an id that is in neither roster leaves the
    whole state unchanged. *)
Theorem update_point_rewrites_one_roster
    (s : SimulationState) (pid : string) (u : PartialPoint) :
  let s' := updatePoint s pid u in
  (In pid (map id (orbitPoints s)) -> points s' = points s) /\
  (~ In pid (map id (orbitPoints s)) -> orbitPoints s' = orbitPoints s) /\
  (forall i p, nth_error (points s) i = Some p -> id p <> pid ->
     nth_error (points s') i = Some p) /\
  (forall i p, nth_error (orbitPoints s) i = Some p -> id p <> pid ->
     nth_error (orbitPoints s') i = Some p) /\
  (List.length (points s') = List.length (points s) /\
   List.length (orbitPoints s') = List.length (orbitPoints s)) /\
  (~ In pid (map id (points s)) -> ~ In pid (map id (orbitPoints s)) -> s' = s).
Proof.
  intro s'; subst s'; unfold updatePoint.
  destruct (existsb (fun p => (id p =? pid)%string) (orbitPoints s)) eqn:E.
  - apply existsb_id in E.
    repeat split; simpl; trivial; try contradiction.
    + intros; now apply updateIn_other.
    + unfold updateIn; apply length_map.
  - assert (N : ~ In pid (map id (orbitPoints s)))
      by (intro H; apply existsb_id in H; congruence).
    repeat split; simpl; trivial; try contradiction.
    + intros; now apply updateIn_other.
    + unfold updateIn; apply length_map.
    + intros NP _; rewrite updateIn_absent by exact NP.
      destruct s; reflexivity.
Qed.

End PointUpdates.

(** ** The sensor editor *)

Section Editor.
Import Store Interface.

Lemma find_updateIn pid u pts sel :
  u_id u = None ->
  find (fun p => (id p =? pid)%string) pts = Some sel ->
  find (fun p => (id p =? pid)%string) (updateIn pid u pts) = Some (spread sel u).
Proof.
  intros U; unfold updateIn.
  induction pts as [| p pts IH]; cbn [find map]; [discriminate |].
  destruct (String.eqb_spec (id p) pid) as [E | N].
  - intro H; injection H as <-.
    replace (id (spread p u)) with (id p) by (unfold spread; now rewrite U).
    destruct (String.eqb_spec (id p) pid); [reflexivity | contradiction].
  - destruct (String.eqb_spec (id p) pid); [contradiction | exact IH].
Qed.

Lemma axisUpdate_id a c : u_id (axisUpdate a c) = None.
Proof. destruct a; reflexivity. Qed.

(** What [updatePoint] with an update of one axis does to the selected
    point, when the roster it rewrites is the one the selection is in. *)
Lemma selected_after_axis_update s axis c sel :
  selectedPoint s = Some sel ->
  (appMode s = ORBIT \/ ~ In (id sel) (map id (orbitPoints s))) ->
  selectedPoint (updatePoint s (id sel) (axisUpdate axis c))
  = Some (spread sel (axisUpdate axis c)).
Proof.
  unfold selectedPoint, activePoints, updatePoint.
  destruct (selectedPointId s) as [i |] eqn:Ei; [| discriminate].
  intros F H.
  assert (Eid : id sel = i)
    by (apply find_some in F as [_ E]; now apply String.eqb_eq).
  subst i.
  destruct (existsb (fun p => (id p =? id sel)%string) (orbitPoints s)) eqn:Ex.
  - destruct (appMode s) eqn:A; simpl; rewrite ?Ei, ?A.
    + exfalso; apply existsb_id in Ex.
      destruct H as [H | H]; [discriminate | contradiction].
    + apply find_updateIn; [apply axisUpdate_id | exact F].
  - destruct (appMode s) eqn:A; simpl; rewrite ?Ei, ?A.
    + apply find_updateIn; [apply axisUpdate_id | exact F].
    + exfalso.
      assert (In (id sel) (map id (orbitPoints s)))
        by (apply find_some in F as [Hin _]; now apply in_map).
      apply existsb_id in H0; congruence.
Qed.

(** X21. Manual entry lands on the selected point's active axis, resets its
    noise to [0], leaves its other axes and its identity alone, and
    toggles the dialog. *)
Theorem manual_entry_lands_on_selection
    (s : SimulationState) (axis : Axis) (fund : ManualFund)
    (hs : list ManualHarmonic) (sel : MeasurementPoint) :
  selectedPoint s = Some sel ->
  (appMode s = ORBIT \/ ~ In (id sel) (map id (orbitPoints s))) ->
  let s' := applyManualSimulation s axis fund hs in
  exists sel',
    selectedPoint s' = Some sel' /\
    axisOf sel' axis = manualComponent fund hs /\
    noise (axisOf sel' axis) = Some 0 /\
    identityOf sel' = identityOf sel /\
    (forall a, a <> axis -> axisOf sel' a = axisOf sel a) /\
    isUploadModalOpen s' = negb (isUploadModalOpen s).
Proof.
  intros F H s'; subst s'; unfold applyManualSimulation; rewrite F.
  pose proof (selected_after_axis_update s axis (manualComponent fund hs) sel F H) as S.
  exists (spread sel (axisUpdate axis (manualComponent fund hs))).
  split; [| split; [| split; [| split; [| split]]]].
  - unfold selectedPoint, activePoints, toggleUploadModal in *; simpl; exact S.
  - destruct axis; reflexivity.
  - destruct axis; reflexivity.
  - destruct axis; reflexivity.
  - intros a Ha; destruct axis, a; try reflexivity; contradiction.
  - unfold toggleUploadModal, updatePoint.
    destruct (existsb _ _); reflexivity.
Qed.

Lemma manual_entry_lands_on_selection_witness :
  let s := mkState ODS 110 1480 10.0 50 true false false false true false false
             (ODSMode_value Manual) (OrbitFault_value OrbitManual) 0 0
             INITIAL_ODS_POINTS INITIAL_ORBIT_POINTS (Some "m-de"%string) in
  exists sel',
    selectedPoint (applyManualSimulation s Vertical (mkManualFund 4 0)
                     [mkManualHarmonic 1 2 2]) = Some sel' /\
    axisOf sel' Vertical = manualComponent (mkManualFund 4 0) [mkManualHarmonic 1 2 2].
Proof.
  intro s.
  destruct (manual_entry_lands_on_selection s Vertical (mkManualFund 4 0)
              [mkManualHarmonic 1 2 2]
              (createPoint "m-de" "Motor DE Brg" 0 1.4 1.0 true))
    as (sel' & H1 & H2 & _).
  - reflexivity.
  - right; simpl; intros [H | [H | [H | []]]]; discriminate.
  - exists sel'; split; assumption.
Defined.

(** X22. The amplitude and phase fields of the editor change that one field of
    the selected point's active axis: harmonics, noise, the other field,
    the other axes and the point's identity stay as they are. *)
Theorem editing_a_field_keeps_the_rest
    (s : SimulationState) (axis : Axis) (field : Field) (value : R)
    (sel : MeasurementPoint) :
  selectedPoint s = Some sel ->
  (appMode s = ORBIT \/ ~ In (id sel) (map id (orbitPoints s))) ->
  let s' := updateComponent s axis field value in
  exists sel',
    selectedPoint s' = Some sel' /\
    harmonics (axisOf sel' axis) = harmonics (axisOf sel axis) /\
    noise (axisOf sel' axis) = noise (axisOf sel axis) /\
    match field with
    | FAmplitude => amplitude (axisOf sel' axis) = value /\
                    phase (axisOf sel' axis) = phase (axisOf sel axis)
    | FPhase => phase (axisOf sel' axis) = value /\
                amplitude (axisOf sel' axis) = amplitude (axisOf sel axis)
    end /\
    identityOf sel' = identityOf sel /\
    (forall a, a <> axis -> axisOf sel' a = axisOf sel a).
Proof.
  intros F H s'; subst s'; unfold updateComponent; rewrite F.
  rewrite (selected_after_axis_update s axis _ sel F H).
  eexists; split; [reflexivity |].
  split; [| split; [| split; [| split]]].
  - destruct axis, field; reflexivity.
  - destruct axis, field; reflexivity.
  - destruct axis, field; split; reflexivity.
  - destruct axis; reflexivity.
  - intros a Ha; destruct axis, a; try reflexivity; contradiction.
Qed.

Lemma editing_a_field_keeps_the_rest_witness :
  let s := mkState ORBIT 110 1480 10.0 50 true false false false false false false
             (ODSMode_value Manual) (OrbitFault_value OrbitManual) 0 0
             INITIAL_ODS_POINTS INITIAL_ORBIT_POINTS (Some "probe-x"%string) in
  exists sel',
    selectedPoint (updateComponent s Horizontal FAmplitude 55) = Some sel' /\
    harmonics (axisOf sel' Horizontal) = Some [].
Proof.
  intro s.
  destruct (editing_a_field_keeps_the_rest s Horizontal FAmplitude 55
              (createPoint "probe-x" "Probe X" 1.0 1.0 0 false))
    as (sel' & H1 & H2 & _).
  - reflexivity.
  - left; reflexivity.
  - exists sel'; split; assumption.
Defined.

Lemma manual_peak_loop fund hs : forall pk,
  0 < fundAmp fund ->
  fold_left (fun peak h => peak + fundAmp fund * amplitudeRatio h)
            (manualToHarmonics fund hs) pk
  = fold_left Rplus (map mhAmp hs) pk.
Proof.
  intros pk Hf; revert pk; induction hs as [| h hs IH]; intro pk; simpl; [reflexivity |].
  rewrite IH; f_equal.
  rewrite JSFacts.gt_true by exact Hf.
  field; lra.
Qed.

(** X23. With a positive fundamental, the peaks typed into the manual form add
    up: the peak of the component it builds is the fundamental amplitude
    plus the amplitudes of the entered harmonics, and each stored harmonic
    shows the amplitude that was typed in. *)
Theorem manual_peaks_add_up (fund : ManualFund) (hs : list ManualHarmonic) :
  0 < fundAmp fund ->
  let comp := manualComponent fund hs in
  OrbitWindow.getPeakAmp comp = fold_left Rplus (map mhAmp hs) (fundAmp fund) /\
  map (shownAmp comp) (manualToHarmonics fund hs) = map mhAmp hs /\
  map order (manualToHarmonics fund hs) = map mhOrder hs.
Proof.
  intros Hf comp; subst comp; split; [| split].
  - unfold OrbitWindow.getPeakAmp, manualComponent; simpl.
    rewrite JSFacts.truthy_zero; now apply manual_peak_loop.
  - unfold manualToHarmonics, shownAmp; rewrite map_map; apply map_ext; intro h; simpl.
    rewrite JSFacts.gt_true by exact Hf; field; lra.
  - unfold manualToHarmonics; rewrite map_map; apply map_ext; reflexivity.
Qed.

Lemma manual_peaks_add_up_witness :
  OrbitWindow.getPeakAmp (manualComponent (mkManualFund 4 0) [mkManualHarmonic 1 2 2])
  = fold_left Rplus (map mhAmp [mkManualHarmonic 1 2 2]) 4.
Proof.
  apply (manual_peaks_add_up (mkManualFund 4 0) [mkManualHarmonic 1 2 2]).
  simpl; lra.
Defined.

Lemma silent_loop comp omega t hs : forall v,
  Forall (fun h => amplitudeRatio h = 0) hs ->
  fold_left (OdsMath.harmonicStep comp omega t) hs v = v.
Proof.
  induction hs as [| h hs IH]; intros v H; simpl; [reflexivity |].
  inversion H as [| ? ? Hh Hr]; subst.
  rewrite IH by exact Hr.
  unfold OdsMath.harmonicStep; rewrite Hh; ring.
Qed.

(** X24. With a fundamental that is not positive nothing is divided: every
    entered harmonic gets ratio [0], and the component evaluates as its
    fundamental alone. *)
Theorem manual_entry_without_fundamental
    (fund : ManualFund) (hs : list ManualHarmonic) (omega t : R) :
  fundAmp fund <= 0 ->
  Forall (fun h => amplitudeRatio h = 0) (manualToHarmonics fund hs) /\
  OdsMath.componentVal (manualComponent fund hs) omega t
  = sin (omega * t + fundPhase fund * PI / 180) * fundAmp fund.
Proof.
  intro Hf.
  assert (Z : Forall (fun h => amplitudeRatio h = 0) (manualToHarmonics fund hs)).
  { unfold manualToHarmonics; apply Forall_map, Forall_forall; intros h _; simpl.
    now rewrite JSFacts.gt_false. }
  split; [exact Z |].
  rewrite componentVal_eq; unfold Spec.harmonicList, manualComponent; simpl.
  rewrite JSFacts.gt_false by lra.
  pose proof (silent_loop
                (mkComponent (fundAmp fund) (fundPhase fund)
                   (Some (manualToHarmonics fund hs)) (Some 0))
                omega t (manualToHarmonics fund hs)
                (sin (omega * t + fundPhase fund * PI / 180) * fundAmp fund) Z) as L.
  simpl in L; rewrite L; ring.
Qed.

Lemma manual_entry_without_fundamental_witness :
  Forall (fun h => amplitudeRatio h = 0)
         (manualToHarmonics (mkManualFund 0 0) [mkManualHarmonic 1 2 2]).
Proof.
  apply (manual_entry_without_fundamental (mkManualFund 0 0) [mkManualHarmonic 1 2 2] 1 0).
  simpl; lra.
Defined.

End Editor.

(** ** The arrow at a sensor *)

Section Arrow.
Import OdsMath.

Variables (p0 p1 p2 animationRpm globalGain : R) (points : list MeasurementPoint).

Let frame := Vectors.DynamicVector_frame (p0, p1, p2) animationRpm points globalGain.

(** X25. While paused the picture is frozen: a second frame, whatever its
    delta, leaves the arrow as the first one left it. *)
Theorem paused_arrow_is_frozen
    (groupRefSet : bool) (delta1 delta2 : R) (g : Vectors.ArrowGroup) :
  frame false groupRefSet delta2 (frame false groupRefSet delta1 g)
  = frame false groupRefSet delta1 g.
Proof.
  unfold frame, Vectors.DynamicVector_frame.
  destruct groupRefSet; [| reflexivity].
  cbn [negb Clock.advance].
  set (D := calculateVertexDisplacement p0 p1 p2 (Vectors.timeRef g)
              animationRpm points globalGain).
  destruct (JS.gt 0.001 (Vectors.length D)) eqn:E; simpl; fold D; rewrite E; reflexivity.
Qed.

End Arrow.

(** X26. With no sensors in the roster the arrow is hidden on every frame that
    reaches the evaluation and its group rests at the anchor. *)
Theorem arrow_hidden_without_sensors
    (p0 p1 p2 animationRpm globalGain : R) (isPlaying : bool) (delta : R)
    (g : Vectors.ArrowGroup) :
  let g' := Vectors.DynamicVector_frame (p0, p1, p2) animationRpm [] globalGain
              isPlaying true delta g in
  Vectors.visible g' = false /\
  Vectors.groupPosition g' = OdsMath.mkVector3 p0 p1 p2.
Proof.
  intro g'; subst g'; unfold Vectors.DynamicVector_frame.
  unfold OdsMath.calculateVertexDisplacement, OdsMath.calculateVertexDisplacementWith,
    OdsMath.sensorLoop; simpl.
  rewrite (JSFacts.gt_false 0 0) by lra; simpl.
  unfold Vectors.length; simpl.
  replace (0 * 0 + 0 * 0 + 0 * 0) with 0 by ring.
  rewrite sqrt_0, JSFacts.gt_true by lra; simpl.
  split; [reflexivity | f_equal; ring].
Qed.

(** ** Auto-scale *)

Section AutoScaleShape.
Import OrbitWindow.

Variable k : R.
Hypothesis k_pos : 0 < k.

Let scaled (c : VibrationComponent) : VibrationComponent :=
  mkComponent (k * amplitude c) (phase c) (harmonics c) (option_map (Rmult k) (noise c)).

Lemma calcVal_loop_scaled c t hs : forall v,
  fold_left (calcStep (scaled c) t) hs (k * v) = k * fold_left (calcStep c t) hs v.
Proof.
  induction hs as [| h hs IH]; intro v; simpl; [reflexivity |].
  rewrite <- IH; f_equal; unfold calcStep; simpl; ring.
Qed.

Lemma calcVal_scaled c t : calcVal (scaled c) t = k * calcVal c t.
Proof.
  unfold calcVal; simpl.
  destruct (harmonics c) as [hs |].
  - rewrite <- calcVal_loop_scaled; f_equal; ring.
  - ring.
Qed.

Lemma peak_loop_scaled c hs : forall pk,
  fold_left (fun peak h => peak + amplitude (scaled c) * amplitudeRatio h) hs (k * pk)
  = k * fold_left (fun peak h => peak + amplitude c * amplitudeRatio h) hs pk.
Proof.
  induction hs as [| h hs IH]; intro pk; simpl; [reflexivity |].
  rewrite <- IH; f_equal; ring.
Qed.

Lemma getPeakAmp_scaled c : getPeakAmp (scaled c) = k * getPeakAmp c.
Proof.
  unfold getPeakAmp; simpl.
  assert (P : match harmonics c with
              | Some hs => fold_left (fun peak h => peak + k * amplitude c * amplitudeRatio h)
                                     hs (k * amplitude c)
              | None => k * amplitude c
              end
              = k * match harmonics c with
                    | Some hs => fold_left (fun peak h => peak + amplitude c * amplitudeRatio h)
                                           hs (amplitude c)
                    | None => amplitude c
                    end).
  { destruct (harmonics c) as [hs |]; [apply (peak_loop_scaled c) | reflexivity]. }
  destruct (noise c) as [n |]; simpl; [| exact P].
  unfold JS.truthy.
  destruct (Req_dec_T n 0) as [Z | NZ], (Req_dec_T (k * n) 0) as [Z' | NZ'].
  - exact P.
  - exfalso; apply NZ'; rewrite Z; ring.
  - exfalso; apply NZ; nra.
  - rewrite P; ring.
Qed.

(** X10. The plot shows the shape of the orbit only: multiplying the amplitude
    and noise of both probes by one positive factor leaves the plotted
    path, point for point, as it was (the scale being taken from a peak
    that is not zero). *)
Theorem orbit_path_ignores_common_gain
    (width height : R) (probeX probeY : VibrationComponent) :
  maxAmp probeX probeY <> 0 ->
  orbitPath width height
    (mkComponent (k * amplitude probeX) (phase probeX) (harmonics probeX)
                 (option_map (Rmult k) (noise probeX)))
    (mkComponent (k * amplitude probeY) (phase probeY) (harmonics probeY)
                 (option_map (Rmult k) (noise probeY)))
  = orbitPath width height probeX probeY.
Proof.
  intro M.
  change (orbitPath width height (scaled probeX) (scaled probeY)
          = orbitPath width height probeX probeY).
  assert (MA : maxAmp (scaled probeX) (scaled probeY) = k * maxAmp probeX probeY).
  { unfold maxAmp; rewrite !getPeakAmp_scaled, RmaxRmult by lra; ring. }
  assert (S : k * scale width (scaled probeX) (scaled probeY) = scale width probeX probeY).
  { unfold scale, JS.or_else; rewrite MA.
    rewrite !JSFacts.truthy_true by nra.
    field; split; [exact M | lra]. }
  unfold orbitPath; apply map_ext; intro i.
  unfold plot, sample; rewrite !calcVal_scaled.
  replace (k * calcVal probeX (sampleTime i) * scale width (scaled probeX) (scaled probeY))
    with (calcVal probeX (sampleTime i) * (k * scale width (scaled probeX) (scaled probeY)))
    by ring.
  replace (k * calcVal probeY (sampleTime i) * scale width (scaled probeX) (scaled probeY))
    with (calcVal probeY (sampleTime i) * (k * scale width (scaled probeX) (scaled probeY)))
    by ring.
  now rewrite S.
Qed.

End AutoScaleShape.

Lemma orbit_path_ignores_common_gain_witness :
  let c := mkComponent 1 0 None None in
  OrbitWindow.orbitPath 400 400
    (mkComponent (40 * 1) 0 None (option_map (Rmult 40) None))
    (mkComponent (40 * 1) 0 None (option_map (Rmult 40) None))
  = OrbitWindow.orbitPath 400 400 c c.
Proof.
  intro c.
  apply (orbit_path_ignores_common_gain 40 ltac:(lra) 400 400 c c).
  unfold OrbitWindow.maxAmp, OrbitWindow.getPeakAmp, c; simpl.
  rewrite Rmax_left by lra; lra.
Defined.

(** ** Bounds on the displacement field *)

Section FieldBounds.
Import OdsMath.

Variables (x y z t animationRpm globalGain B : R).

(** The band of a component: its peak plus half its noise. *)
Let band (c : VibrationComponent) : R :=
  OrbitWindow.getPeakAmp c + 0.5 * match noise c with Some n => n | None => 0 end.

Lemma mag_within_band c omega :
  0 <= globalGain -> Spec.nonNegative c -> band c <= B ->
  - (globalGain * 0.015 * B)
  <= calculateComponentDisplacement c omega t globalGain SCALAR
  <= globalGain * 0.015 * B.
Proof.
  intros Hg Hc Hb.
  pose proof (componentVal_band c omega t Hc) as W; fold (band c) in W.
  unfold calculateComponentDisplacement, SCALAR.
  generalize dependent (componentVal c omega t); intros v W.
  generalize dependent (band c); intros b Hb W.
  pose proof (Rle_abs v) as V2.
  pose proof (Rle_abs (- v)) as V1; rewrite Rabs_Ropp in V1.
  assert (G : 0 <= globalGain * 0.015) by lra.
  replace (v * globalGain * 0.015) with (globalGain * 0.015 * v) by ring.
  generalize dependent (globalGain * 0.015); intros s G.
  assert (s * v <= s * B) by (apply Rmult_le_compat_l; lra).
  assert (s * (- B) <= s * v) by (apply Rmult_le_compat_l; lra).
  lra.
Qed.

(** X27. The field never moves a point farther, on any axis, than the gain
    times the unit scalar [0.015] times the largest band of the sensors'
    components (a component's band being its peak plus half its noise),
    for components in range and a gain that is not negative. *)
Theorem kernel_displacement_bounded
    (p : MeasurementPoint) (ps : list MeasurementPoint) :
  0 <= globalGain ->
  (forall q, In q (p :: ps) ->
     (Spec.nonNegative (horizontal q) /\
      Spec.nonNegative (vertical q) /\
      Spec.nonNegative (axial q)) /\
     OrbitWindow.getPeakAmp (horizontal q)
       + 0.5 * match noise (horizontal q) with Some n => n | None => 0 end <= B /\
     OrbitWindow.getPeakAmp (vertical q)
       + 0.5 * match noise (vertical q) with Some n => n | None => 0 end <= B /\
     OrbitWindow.getPeakAmp (axial q)
       + 0.5 * match noise (axial q) with Some n => n | None => 0 end <= B) ->
  let d := calculateVertexDisplacement x y z t animationRpm (p :: ps) globalGain in
  Rabs (vx d) <= globalGain * 0.015 * B /\
  Rabs (vy d) <= globalGain * 0.015 * B /\
  Rabs (vz d) <= globalGain * 0.015 * B.
Proof.
  intros Hg H d; subst d.
  split; [| split]; apply Rabs_le.
  - apply (kernel_coordinate_between x y z t animationRpm globalGain horizontal vx);
      try reflexivity.
    intros q Hq; destruct (H q Hq) as ((N & _ & _) & Bh & _ & _).
    now apply mag_within_band.
  - apply (kernel_coordinate_between x y z t animationRpm globalGain vertical vy);
      try reflexivity.
    intros q Hq; destruct (H q Hq) as ((_ & N & _) & _ & Bv & _).
    now apply mag_within_band.
  - apply (kernel_coordinate_between x y z t animationRpm globalGain axial vz);
      try reflexivity.
    intros q Hq; destruct (H q Hq) as ((_ & _ & N) & _ & _ & Ba).
    now apply mag_within_band.
Qed.

End FieldBounds.

Lemma kernel_displacement_bounded_witness :
  let p := Store.createPoint "m-de" "Motor DE Brg" 0 1.4 1.0 true in
  Rabs (OdsMath.vx (OdsMath.calculateVertexDisplacement 0 0 0 1 110 [p] 10))
  <= 10 * 0.015 * 0.2.
Proof.
  intro p.
  apply (kernel_displacement_bounded 0 0 0 1 110 10 0.2 p []); [lra |].
  intros q [<- | []]; unfold p, Store.createPoint; simpl.
  unfold Spec.nonNegative, Spec.harmonicList, OrbitWindow.getPeakAmp; simpl.
  rewrite JSFacts.truthy_zero.
  repeat split; try lra; constructor.
Defined.

(** A component with amplitude [0] and no positive noise is silent,
    harmonics and all. *)
Lemma silent_component c omega t :
  amplitude c = 0 -> Spec.noiseOff c -> OdsMath.componentVal c omega t = 0.
Proof.
  intros Ha Hn; rewrite componentVal_eq, harmonics_loop.
  unfold Spec.noiseOff in Hn.
  assert (L : forall hs v,
            fold_left Rplus (map (Spec.harmonicTerm c omega t) hs) v = v).
  { induction hs as [| h hs IH]; intro v; simpl; [reflexivity |].
    rewrite IH; unfold Spec.harmonicTerm; rewrite Ha; ring. }
  rewrite L, Ha.
  destruct (noise c) as [n |]; [rewrite JSFacts.gt_false by exact Hn |]; ring.
Qed.

(** X28. A roster of silent sensors, each component with amplitude [0] and
    its noise term off, moves nothing: the kernel returns the zero vector
    whatever harmonics the components list. *)
Theorem silent_sensors_move_nothing
    (x y z t animationRpm globalGain : R) (points : list MeasurementPoint) :
  (forall q, In q points ->
     (amplitude (horizontal q) = 0 /\ Spec.noiseOff (horizontal q)) /\
     (amplitude (vertical q) = 0 /\ Spec.noiseOff (vertical q)) /\
     (amplitude (axial q) = 0 /\ Spec.noiseOff (axial q))) ->
  OdsMath.calculateVertexDisplacement x y z t animationRpm points globalGain
  = OdsMath.mkVector3 0 0 0.
Proof.
  intro H.
  assert (Z : forall q c, In q points ->
            amplitude c = 0 /\ Spec.noiseOff c ->
            0 <= OdsMath.calculateComponentDisplacement c
                   (animationRpm * 2 * PI / 60) t globalGain OdsMath.SCALAR <= 0).
  { intros q c _ [Ha Hn]; unfold OdsMath.calculateComponentDisplacement.
    rewrite silent_component by assumption; lra. }
  destruct points as [| p ps].
  - unfold OdsMath.calculateVertexDisplacement, OdsMath.calculateVertexDisplacementWith,
      OdsMath.sensorLoop; simpl.
    now rewrite JSFacts.gt_false by lra.
  - assert (X : 0 <= OdsMath.vx (OdsMath.calculateVertexDisplacement x y z t animationRpm
                                   (p :: ps) globalGain) <= 0).
    { apply (kernel_coordinate_between x y z t animationRpm globalGain
               horizontal OdsMath.vx); try reflexivity.
      intros q Hq; apply (Z q _ Hq), (H q Hq). }
    assert (Y : 0 <= OdsMath.vy (OdsMath.calculateVertexDisplacement x y z t animationRpm
                                   (p :: ps) globalGain) <= 0).
    { apply (kernel_coordinate_between x y z t animationRpm globalGain
               vertical OdsMath.vy); try reflexivity.
      intros q Hq; apply (Z q _ Hq), (H q Hq). }
    assert (A : 0 <= OdsMath.vz (OdsMath.calculateVertexDisplacement x y z t animationRpm
                                   (p :: ps) globalGain) <= 0).
    { apply (kernel_coordinate_between x y z t animationRpm globalGain
               axial OdsMath.vz); try reflexivity.
      intros q Hq; apply (Z q _ Hq), (H q Hq). }
    destruct (OdsMath.calculateVertexDisplacement x y z t animationRpm (p :: ps) globalGain)
      as [a b c]; simpl in *.
    f_equal; lra.
Qed.

Lemma silent_sensors_move_nothing_witness :
  let zero := mkComponent 0 0 (Some [mkHarmonic 2 0.5 0]) (Some 0) in
  let p := mkPoint "a" "A" (1, 2, 3) zero zero zero None in
  OdsMath.calculateVertexDisplacement 0 0 0 1 110 [p] 10 = OdsMath.mkVector3 0 0 0.
Proof.
  intros zero p.
  apply (silent_sensors_move_nothing 0 0 0 1 110 10 [p]).
  intros q [<- | []]; unfold p, zero, Spec.noiseOff; simpl.
  repeat split; lra.
Defined.
